(** * Release selection of the landing page ([src/App.tsx])

    The page fetches a Sparkle appcast, and [findLatestSparkleRelease]
    picks the entry that drives the download link.  This development
    embeds [tokenizeVersion], [compareVersionStrings] and
    [findLatestSparkleRelease] together with the pieces of the platform
    they call (string trimming and lower-casing, [parseInt], the DOM
    queries), and proves the properties the specification states about
    them.

    Conventions of the embedding.
    - A JavaScript string is a [string]; each character stands for the
      UTF-16 code unit of the same value, so the strings covered are the
      ones whose code units are below 256.
    - The JavaScript numbers that occur in the code are integers, the two
      infinities and NaN; they are the type [number].
    - [Date.parse] is a built-in whose accepted formats are left to the
      engine; it is a parameter of the selector. *)

From Stdlib Require Import ZArith List Bool Ascii String Lia Permutation.
Import ListNotations.

Local Open Scope string_scope.
Local Open Scope Z_scope.

#[local] Set Warnings "-register-all".

(** ** JavaScript strings *)

Module JsString.

(** Code unit of a character. *)
Definition code (c : ascii) : N := N_of_ascii c.

(** WhiteSpace and LineTerminator code units below 256: TAB, LF, VT, FF,
    CR, SP and NBSP.  These are what [String.prototype.trim] strips. *)
Definition isWhiteSpace (c : ascii) : bool :=
  let n := code c in
  ((9 <=? n) && (n <=? 13) || (n =? 32) || (n =? 160))%N.

(** [String.prototype.trimStart]. *)
Fixpoint trimStart (s : string) : string :=
  match s with
  | EmptyString => EmptyString
  | String c rest => if isWhiteSpace c then trimStart rest else s
  end.

(** [String.prototype.trimEnd]. *)
Fixpoint trimEnd (s : string) : string :=
  match s with
  | EmptyString => EmptyString
  | String c rest =>
      match trimEnd rest with
      | EmptyString => if isWhiteSpace c then EmptyString else String c EmptyString
      | kept => String c kept
      end
  end.

(** [String.prototype.trim]. *)
Definition trim (s : string) : string := trimEnd (trimStart s).

(** Lower-case mapping of one code unit below 256: A-Z, and the Latin-1
    capitals U+00C0..U+00DE except the multiplication sign U+00D7. *)
Definition lowerChar (c : ascii) : ascii :=
  let n := code c in
  if ((65 <=? n) && (n <=? 90) ||
      (192 <=? n) && (n <=? 222) && negb (n =? 215))%N
  then ascii_of_N (n + 32) else c.

(** [String.prototype.toLowerCase] on code units below 256, where it
    maps each code unit on its own.  (On other strings the built-in also
    looks at neighbouring characters, as for the final sigma.) *)
Fixpoint toLowerCase (s : string) : string :=
  match s with
  | EmptyString => EmptyString
  | String c rest => String (lowerChar c) (toLowerCase rest)
  end.

(** The class [[\.-]] of the separator regular expression. *)
Definition isSeparator (c : ascii) : bool :=
  ((code c =? 46) || (code c =? 45))%N.

(** [s.split(/[\.-]/)]: the pieces between separators, empty pieces
    included; the empty string splits into one empty piece. *)
Fixpoint split (s : string) : list string :=
  match s with
  | EmptyString => [EmptyString]
  | String c rest =>
      if isSeparator c then EmptyString :: split rest
      else match split rest with
           | [] => [String c EmptyString]
           | piece :: pieces => String c piece :: pieces
           end
  end.

(** The class [\d]. *)
Definition isDigit (c : ascii) : bool :=
  ((48 <=? code c) && (code c <=? 57))%N.

Fixpoint allDigits (s : string) : bool :=
  match s with
  | EmptyString => true
  | String c rest => isDigit c && allDigits rest
  end.

(** [/^\d+$/.test(s)]. *)
Definition isDigitString (s : string) : bool :=
  match s with
  | EmptyString => false
  | _ => allDigits s
  end.

(** [s.length > 0], also the truthiness of a string. *)
Definition nonEmpty (s : string) : bool :=
  match s with
  | EmptyString => false
  | _ => true
  end.

(** [a > b] on strings: code units compared left to right, a proper
    prefix being smaller. *)
Definition gt (a b : string) : bool :=
  match String.compare a b with
  | Gt => true
  | _ => false
  end.

End JsString.

(** ** JavaScript numbers *)

Module JsNumber.

Inductive number : Type :=
| NaN
| NegInfinity
| Finite (z : Z)
| PosInfinity.

(** [a > b]. *)
Definition gt (a b : number) : bool :=
  match a, b with
  | NaN, _ | _, NaN => false
  | NegInfinity, _ => false
  | Finite _, NegInfinity => true
  | Finite x, Finite y => y <? x
  | Finite _, PosInfinity => false
  | PosInfinity, PosInfinity => false
  | PosInfinity, _ => true
  end.

(** [a === b]. *)
Definition strictEq (a b : number) : bool :=
  match a, b with
  | NegInfinity, NegInfinity => true
  | Finite x, Finite y => x =? y
  | PosInfinity, PosInfinity => true
  | _, _ => false
  end.

(** [Number.isNaN]. *)
Definition isNaN (a : number) : bool :=
  match a with
  | NaN => true
  | _ => false
  end.

(** The Number value of a natural number: the nearest double, ties to the
    even significand, and Infinity from [2^1024] on. *)
Definition roundNat (n : Z) : number :=
  if n <? 2 ^ 53 then Finite n
  else
    let e := Z.log2 n - 52 in
    let q := Z.shiftr n e in
    let r := n mod 2 ^ e in
    let half := 2 ^ (e - 1) in
    let q' := if (half <? r) || ((r =? half) && Z.odd q) then q + 1 else q in
    let v := Z.shiftl q' e in
    if 2 ^ 1024 <=? v then PosInfinity else Finite v.

(** The Number value of an integer. *)
Definition ofInteger (z : Z) : number :=
  if z <? 0 then
    match roundNat (- z) with
    | Finite v => Finite (- v)
    | PosInfinity => NegInfinity
    | other => other
    end
  else roundNat z.

Definition digitValue (c : ascii) : Z := Z.of_N (JsString.code c) - 48.

(** Longest prefix of decimal digits, read as an integer, and whether it
    is non-empty. *)
Fixpoint readDigits (acc : Z) (seen : bool) (s : string) : Z * bool :=
  match s with
  | EmptyString => (acc, seen)
  | String c rest =>
      if JsString.isDigit c then readDigits (10 * acc + digitValue c) true rest
      else (acc, seen)
  end.

(** [parseInt(s, 10)]: leading white space and one sign are skipped, the
    digits that follow are read, NaN when there is none. *)
Definition parseInt10 (s : string) : number :=
  let body := JsString.trimStart s in
  let '(sign, digits) :=
    match body with
    | String "-" rest => (-1, rest)
    | String "+" rest => (1, rest)
    | _ => (1, body)
    end in
  match readDigits 0 false digits with
  | (_, false) => NaN
  | (value, true) => ofInteger (sign * value)
  end.

End JsNumber.

Export JsNumber (number (..)).

(** ** Version segments and their comparison *)

Inductive VersionSegment : Type :=
| SegNumber (value : number)
| SegString (value : string).

(** A segment is well formed when it is not a number segment holding
    NaN; [tokenizeVersion] builds no other. *)
Definition wellFormed (seg : VersionSegment) : Prop := seg <> SegNumber NaN.

(** The last [map] of [tokenizeVersion]. *)
Definition toSegment (segment : string) : VersionSegment :=
  if JsString.isDigitString segment
  then SegNumber (JsNumber.parseInt10 segment)
  else SegString (JsString.toLowerCase segment).

Definition tokenizeVersion (version : string) : list VersionSegment :=
  map toSegment
    (filter JsString.nonEmpty
       (map JsString.trim (JsString.split version))).

(** The segment standing for a position past the end of a token list. *)
Definition zeroSegment : VersionSegment := SegNumber (Finite 0).

(** [tokens[index] ?? { type: "number", value: 0 }]. *)
Definition segmentAt (tokens : list VersionSegment) (index : nat) : VersionSegment :=
  match nth_error tokens index with
  | Some seg => seg
  | None => zeroSegment
  end.

(** One turn of the loop body: [Some r] for [return r], [None] for going
    on to the next index. *)
Definition compareSegments (segA segB : VersionSegment) : option Z :=
  match segA, segB with
  | SegNumber x, SegNumber y =>
      if JsNumber.strictEq x y then None
      else Some (if JsNumber.gt x y then 1 else -1)
  | SegString x, SegString y =>
      if String.eqb x y then None
      else Some (if JsString.gt x y then 1 else -1)
  | SegNumber _, SegString _ => Some 1
  | SegString _, SegNumber _ => Some (-1)
  end.

(** What the loop body does at [index]. *)
Definition turn (tokensA tokensB : list VersionSegment) (index : nat) : option Z :=
  compareSegments (segmentAt tokensA index) (segmentAt tokensB index).

(** The [for] loop from [index], with [remaining = maxLength - index]
    turns left. *)
Fixpoint compareFrom (tokensA tokensB : list VersionSegment)
    (index remaining : nat) : Z :=
  match remaining with
  | O => 0
  | S remaining' =>
      match turn tokensA tokensB index with
      | Some result => result
      | None => compareFrom tokensA tokensB (S index) remaining'
      end
  end.

Definition compareTokens (tokensA tokensB : list VersionSegment) : Z :=
  let maxLength := Nat.max (List.length tokensA) (List.length tokensB) in
  compareFrom tokensA tokensB 0 maxLength.

Definition compareVersionStrings (a b : string) : Z :=
  compareTokens (tokenizeVersion a) (tokenizeVersion b).

(** The comparison as the specification words it: the shorter token
    list is padded with numeric-zero segments to the length of the longer
    one, and the two lists are then walked position by position up to the
    first one that discriminates. *)
Definition spec_pad (length : nat) (tokens : list VersionSegment)
    : list VersionSegment :=
  (tokens ++ repeat zeroSegment (length - List.length tokens))%list.

Fixpoint spec_walk (segsA segsB : list VersionSegment) : Z :=
  match segsA, segsB with
  | segA :: restA, segB :: restB =>
      match compareSegments segA segB with
      | Some result => result
      | None => spec_walk restA restB
      end
  | _, _ => 0
  end.

Definition spec_compare (tokensA tokensB : list VersionSegment) : Z :=
  let length := Nat.max (List.length tokensA) (List.length tokensB) in
  spec_walk (spec_pad length tokensA) (spec_pad length tokensB).

(** ** The feed document *)

(** A node of the parsed feed: an element with its local name, its
    attributes by qualified name and its children, or a text node.
    Comments and processing instructions take no part in the queries
    below and are left out. *)
Inductive Node : Type :=
| Element (localName : string) (attributes : list (string * string))
    (childNodes : list Node)
| Text (data : string).

(** The children of the document node, in order. *)
Definition Document : Type := list Node.

Definition children (n : Node) : list Node :=
  match n with
  | Element _ _ nodes => nodes
  | Text _ => []
  end.

Definition isElementNamed (name : string) (n : Node) : bool :=
  match n with
  | Element localName _ _ => String.eqb localName name
  | Text _ => false
  end.

(** A node followed by its descendants, in tree order. *)
Fixpoint subtree (n : Node) : list Node :=
  n :: match n with
       | Element _ _ nodes => flat_map subtree nodes
       | Text _ => []
       end.

Definition descendants (n : Node) : list Node :=
  flat_map subtree (children n).

(** [n.querySelector(name)] for a type selector: the first descendant
    element of that name. *)
Definition querySelector (name : string) (n : Node) : option Node :=
  find (isElementNamed name) (descendants n).

(** The elements matching [channel > item] in and below [n], in tree
    order; [inChannel] tells whether the parent of [n] is a [channel]
    element. *)
Fixpoint channelItemsIn (inChannel : bool) (n : Node) : list Node :=
  match n with
  | Text _ => []
  | Element localName _ nodes =>
      ((if inChannel && String.eqb localName "item" then [n] else [])
       ++ flat_map (channelItemsIn (String.eqb localName "channel")) nodes)%list
  end.

(** [Array.from(xml.querySelectorAll("channel > item"))]. *)
Definition querySelectorAll_channel_item (xml : Document) : list Node :=
  flat_map (channelItemsIn false) xml.

Fixpoint lookupAttribute (name : string) (attrs : list (string * string))
    : option string :=
  match attrs with
  | [] => None
  | (key, value) :: rest =>
      if String.eqb key name then Some value else lookupAttribute name rest
  end.

(** [n.getAttribute(name)]. *)
Definition getAttribute (name : string) (n : Node) : option string :=
  match n with
  | Element _ attrs _ => lookupAttribute name attrs
  | Text _ => None
  end.

(** [n.textContent]: the text of the node and of its descendants. *)
Fixpoint textContent (n : Node) : string :=
  match n with
  | Text data => data
  | Element _ _ nodes =>
      fold_right (fun child text => textContent child ++ text) "" nodes
  end.

(** ** The selector *)

Record VersionInfo : Type := mkVersionInfo {
  version : string;
  downloadUrl : string
}.

Record SparkleReleaseCandidate : Type := mkCandidate {
  versionKey : option string;
  displayVersion : string;
  candidateUrl : string;  (* the field [downloadUrl] of the candidate *)
  pubDate : option number
}.

(** [x ?? ""] after an optional [trim]. *)
Definition trimmedOrEmpty (value : option string) : string :=
  match value with
  | Some text => JsString.trim text
  | None => ""
  end.

(** A string or null under a truthiness test: kept when it is a
    non-empty string. *)
Definition truthy (value : option string) : option string :=
  match value with
  | Some text => if JsString.nonEmpty text then Some text else None
  | None => None
  end.

(** [date ?? -Infinity]. *)
Definition orNegInfinity (date : option number) : number :=
  match date with
  | Some value => value
  | None => NegInfinity
  end.

(** The date comparison that ends the loop body. *)
Definition laterByDate (latest candidate : SparkleReleaseCandidate)
    : SparkleReleaseCandidate :=
  let latestPubDate := orNegInfinity (pubDate latest) in
  let candidatePubDate := orNegInfinity (pubDate candidate) in
  if JsNumber.gt candidatePubDate latestPubDate then candidate else latest.

(** The part of the loop body that follows the construction of
    [candidate]: the new value of [latest]. *)
Definition consider (latest : option SparkleReleaseCandidate)
    (candidate : SparkleReleaseCandidate) : option SparkleReleaseCandidate :=
  match latest with
  | None => Some candidate
  | Some best =>
      match truthy (versionKey candidate), truthy (versionKey best) with
      | Some candidateKey, Some latestKey =>
          let versionComparison := compareVersionStrings candidateKey latestKey in
          if versionComparison >? 0 then Some candidate
          else if versionComparison <? 0 then Some best
          else Some (laterByDate best candidate)
      | Some _, None => Some candidate
      | None, Some _ => Some best
      | None, None => Some (laterByDate best candidate)
      end
  end.

(** The arguments of the call of [compareVersionStrings] made by
    [consider], when it makes one. *)
Definition comparatorCall (latest : option SparkleReleaseCandidate)
    (candidate : SparkleReleaseCandidate) : list (string * string) :=
  match latest with
  | None => []
  | Some best =>
      match truthy (versionKey candidate), truthy (versionKey best) with
      | Some candidateKey, Some latestKey => [(candidateKey, latestKey)]
      | _, _ => []
      end
  end.

Section Selector.

(** The built-in [Date.parse]. *)
Variable Date_parse : string -> number.

(** The [pubDate] field of the candidate built from [item]: the parsed
    text of its publish date, null when the text is missing, empty or
    parsed to NaN. *)
Definition pubDateOf (item : Node) : option number :=
  let pubDateText :=
    match querySelector "pubDate" item with
    | Some field => JsString.trim (textContent field)
    | None => ""
    end in
  let parsedPubDate :=
    if JsString.nonEmpty pubDateText then Date_parse pubDateText else NaN in
  if JsNumber.isNaN parsedPubDate then None else Some parsedPubDate.

(** The first part of the loop body: the candidate an item gives, or
    [None] where the body runs [continue]. *)
Definition candidateOf (item : Node) : option SparkleReleaseCandidate :=
  match querySelector "enclosure" item with
  | None => None
  | Some enclosure =>
      match option_map JsString.trim (getAttribute "url" enclosure) with
      | None => None
      | Some url =>
          if negb (JsString.nonEmpty url) then None
          else
            let versionAttr :=
              trimmedOrEmpty (getAttribute "sparkle:version" enclosure) in
            let shortVersion :=
              trimmedOrEmpty (getAttribute "sparkle:shortVersionString" enclosure) in
            let key :=
              if JsString.nonEmpty versionAttr then Some versionAttr
              else if JsString.nonEmpty shortVersion then Some shortVersion
              else None in
            let display :=
              if JsString.nonEmpty shortVersion then shortVersion
              else if JsString.nonEmpty versionAttr then versionAttr
              else "" in
            Some {| versionKey := key;
                    displayVersion := display;
                    candidateUrl := url;
                    pubDate := pubDateOf item |}
      end
  end.

(** One turn of the [for ... of] loop. *)
Definition visit (latest : option SparkleReleaseCandidate) (item : Node)
    : option SparkleReleaseCandidate :=
  match candidateOf item with
  | None => latest
  | Some candidate => consider latest candidate
  end.

(** The value of [latest] after the loop has run over [items]. *)
Definition latestAfter (items : list Node) : option SparkleReleaseCandidate :=
  fold_left visit items None.

Definition findLatestSparkleRelease (xml : Document) : option VersionInfo :=
  let items := querySelectorAll_channel_item xml in
  match latestAfter items with
  | None => None
  | Some latest =>
      Some {| version := displayVersion latest;
              downloadUrl := candidateUrl latest |}
  end.

(** The loop again, keeping next to [latest] the arguments of every call
    of [compareVersionStrings], oldest first. *)
Definition visitLogged
    (state : option SparkleReleaseCandidate * list (string * string))
    (item : Node) : option SparkleReleaseCandidate * list (string * string) :=
  match candidateOf item with
  | None => state
  | Some candidate =>
      (consider (fst state) candidate,
       (snd state ++ comparatorCall (fst state) candidate)%list)
  end.

Definition comparatorCalls (xml : Document) : list (string * string) :=
  snd (fold_left visitLogged (querySelectorAll_channel_item xml) (None, [])).

End Selector.

(** ** Feeds used in the statements *)

(** An [item] holding one [enclosure] with the given attributes and,
    when [date] is given, a [pubDate] field with that text. *)
Definition releaseItem (enclosureAttrs : list (string * string))
    (date : option string) : Node :=
  Element "item" []
    (Element "enclosure" enclosureAttrs []
     :: match date with
        | Some text => [Element "pubDate" [] [Text text]]
        | None => []
        end).

(** The usual shape of an appcast: [rss > channel > item*]. *)
Definition appcast (items : list Node) : Document :=
  [Element "rss" [] [Element "channel" [] items]].

(** An item with a download URL and a version identifier. *)
Definition versionedItem (url identifier : string) (date : option string) : Node :=
  releaseItem [("url", url); ("sparkle:version", identifier)] date.

(** An item with a download URL only. *)
Definition bareItem (url : string) (date : option string) : Node :=
  releaseItem [("url", url)] date.

(** The elements of a given name in a list of trees. *)
Definition elementsNamed (name : string) (nodes : list Node) : list Node :=
  filter (isElementNamed name) (flat_map subtree nodes).

(** An item that cannot be a candidate: it has no enclosure, or the
    enclosure has no [url] attribute, or that attribute is empty once
    trimmed. *)
Definition unusable (item : Node) : Prop :=
  querySelector "enclosure" item = None \/
  exists enclosure,
    querySelector "enclosure" item = Some enclosure /\
    (getAttribute "url" enclosure = None \/
     exists url, getAttribute "url" enclosure = Some url /\ JsString.trim url = "").

(** A string that does not begin with white space. *)
Definition cleanStart (s : string) : Prop :=
  match s with
  | EmptyString => True
  | String c _ => JsString.isWhiteSpace c = false
  end.

(** Two candidates that the version keys do not tell apart: neither has
    one, or both have one and the comparator finds them equal. *)
Definition tied (best candidate : SparkleReleaseCandidate) : Prop :=
  (versionKey candidate = None /\ versionKey best = None) \/
  exists candidateKey latestKey,
    versionKey candidate = Some candidateKey /\
    versionKey best = Some latestKey /\
    compareVersionStrings candidateKey latestKey = 0.

(** What the construction of a candidate guarantees: a download URL that
    is trimmed and not empty, and a version key that, when there is one,
    is trimmed and not empty. *)
Definition wellBuilt (candidate : SparkleReleaseCandidate) : Prop :=
  candidateUrl candidate <> "" /\
  JsString.trim (candidateUrl candidate) = candidateUrl candidate /\
  forall key, versionKey candidate = Some key ->
    key <> "" /\ JsString.trim key = key.

(** ** A date parser to run the selector with *)

(** Days from 1970-01-01 to a day of the proleptic Gregorian calendar. *)
Definition daysFromCivil (year month day : Z) : Z :=
  let y := if month <=? 2 then year - 1 else year in
  let era := y / 400 in
  let yearOfEra := y - era * 400 in
  let shifted := if 2 <? month then month - 3 else month + 9 in
  let dayOfYear := (153 * shifted + 2) / 5 + day - 1 in
  let dayOfEra := yearOfEra * 365 + yearOfEra / 4 - yearOfEra / 100 + dayOfYear in
  era * 146097 + dayOfEra - 719468.

Definition monthNames : list string :=
  ["Jan"; "Feb"; "Mar"; "Apr"; "May"; "Jun";
   "Jul"; "Aug"; "Sep"; "Oct"; "Nov"; "Dec"].

Definition dayNames : list string :=
  ["Sun"; "Mon"; "Tue"; "Wed"; "Thu"; "Fri"; "Sat"].

Fixpoint indexOf (name : string) (names : list string) (from : Z) : option Z :=
  match names with
  | [] => None
  | first :: rest =>
      if String.eqb first name then Some from else indexOf name rest (from + 1)
  end.

Definition decimal (digits : string) : option Z :=
  if JsString.isDigitString digits
  then Some (fst (JsNumber.readDigits 0 false digits))
  else None.

(** An instance of the parameter [Date_parse]: it reads the format of
    [Date.prototype.toUTCString], [Www, DD Mon YYYY HH:MM:SS GMT], which
    every [Date.parse] reads, into milliseconds since the epoch, and
    answers NaN on any other text. *)
Definition parseUtcString (text : string) : number :=
  let piece (start size : nat) := substring start size text in
  if (String.length text =? 29)%nat
     && String.eqb (piece 3%nat 2%nat) ", "
     && String.eqb (piece 7%nat 1%nat) " "
     && String.eqb (piece 11%nat 1%nat) " "
     && String.eqb (piece 16%nat 1%nat) " "
     && String.eqb (piece 19%nat 1%nat) ":"
     && String.eqb (piece 22%nat 1%nat) ":"
     && String.eqb (piece 25%nat 4%nat) " GMT"
  then
    match indexOf (piece 0%nat 3%nat) dayNames 0,
          decimal (piece 5%nat 2%nat),
          indexOf (piece 8%nat 3%nat) monthNames 1,
          decimal (piece 12%nat 4%nat),
          decimal (piece 17%nat 2%nat),
          decimal (piece 20%nat 2%nat),
          decimal (piece 23%nat 2%nat) with
    | Some _, Some day, Some month, Some year,
      Some hours, Some minutes, Some seconds =>
        if (1 <=? day) && (day <=? 31) && (hours <? 24)
           && (minutes <? 60) && (seconds <? 60)
        then Finite
               ((((daysFromCivil year month day * 24 + hours) * 60 + minutes) * 60
                 + seconds) * 1000)
        else NaN
    | _, _, _, _, _, _, _ => NaN
    end
  else NaN.

(** The shape of the segments [tokenizeVersion] builds: a number segment
    holds a natural number or Infinity; a string segment is not empty, has
    no white space around it, is in lower case and is not made of digits
    only. *)
Definition canonical (seg : VersionSegment) : Prop :=
  match seg with
  | SegNumber value =>
      value = PosInfinity \/ exists n, value = Finite n /\ 0 <= n
  | SegString text =>
      text <> "" /\ JsString.trim text = text /\
      JsString.toLowerCase text = text /\ JsString.isDigitString text = false
  end.

(** ** The order the loop body follows *)

(** The outcome of the version tests of the loop body for the version
    keys of the candidate and of [latest]: the comparator's result when
    both are truthy, [1] when only the candidate's is, [-1] when only
    [latest]'s is, [0] when neither is. *)
Definition keyOrder (candidateKey latestKey : option string) : Z :=
  match truthy candidateKey, truthy latestKey with
  | Some a, Some b => compareVersionStrings a b
  | Some _, None => 1
  | None, Some _ => -1
  | None, None => 0
  end.

(** Whether the loop body assigns [candidate] to [latest] when [latest]
    holds [best]. *)
Definition outranks (candidate best : SparkleReleaseCandidate) : bool :=
  let versionComparison := keyOrder (versionKey candidate) (versionKey best) in
  if versionComparison >? 0 then true
  else if versionComparison <? 0 then false
  else JsNumber.gt (orNegInfinity (pubDate candidate)) (orNegInfinity (pubDate best)).

(** A candidate whose publish date is a number other than NaN, or null;
    the construction of a candidate gives no other. *)
Definition dated (candidate : SparkleReleaseCandidate) : Prop :=
  pubDate candidate <> Some NaN.

(** ** The page around the selector *)

(** [xml.querySelector(name)] on the document. *)
Definition documentQuerySelector (name : string) (xml : Document) : option Node :=
  find (isElementNamed name) (flat_map subtree xml).

(** [value || fallback] for a string or null. *)
Definition orElse (value : option string) (fallback : string) : string :=
  match truthy value with
  | Some text => text
  | None => fallback
  end.

(** The state [versionInfo] once the feed has been parsed: the handler
    calls [setVersionInfo] only with a release that is not null. *)
Definition receiveFeed (Date_parse : string -> number)
    (versionInfo : option VersionInfo) (xml : Document) : option VersionInfo :=
  match findLatestSparkleRelease Date_parse xml with
  | Some latestRelease => Some latestRelease
  | None => versionInfo
  end.

Definition releasesPage : string :=
  "https://github.com/vivy-company/aizen/releases".

(** The [href] of the download button:
    [versionInfo?.downloadUrl || "https://github.com/vivy-company/aizen/releases"]. *)
Definition downloadHref (versionInfo : option VersionInfo) : string :=
  orElse (option_map downloadUrl versionInfo) releasesPage.

(** The text of the download button: [Download] and a space, followed by
    what [versionInfo?.version && `v${versionInfo.version}`] renders, which
    is nothing for undefined and for the empty string. *)
Definition downloadLabel (versionInfo : option VersionInfo) : string :=
  "Download " ++
  match truthy (option_map version versionInfo) with
  | Some text => "v" ++ text
  | None => ""
  end.

(** The handler of the first revision of the page: the first [enclosure]
    of the document, its attributes untrimmed, with defaults for the
    missing ones; [None] when [setVersionInfo] is not called. *)
Definition legacyVersionInfo (xml : Document) : option VersionInfo :=
  match documentQuerySelector "enclosure" xml with
  | Some enclosure =>
      let url := orElse (getAttribute "url" enclosure) "" in
      let identifier := orElse (getAttribute "sparkle:version" enclosure) "1.0.0" in
      Some {| version := identifier; downloadUrl := url |}
  | None => None
  end.

(** * Properties *)

(** ** Code units, strings and numbers *)

Ltac each_ascii c := destruct c as [[] [] [] [] [] [] [] []].

Lemma digit_not_whitespace (c : ascii) :
  JsString.isDigit c = true -> JsString.isWhiteSpace c = false.
Proof. each_ascii c; vm_compute; congruence. Qed.

Lemma ascii_compare_refl (c : ascii) : Ascii.compare c c = Eq.
Proof. apply N.compare_refl. Qed.

Lemma string_compare_refl (s : string) : String.compare s s = Eq.
Proof.
  induction s as [|c s IH]; simpl; [reflexivity|].
  now rewrite ascii_compare_refl.
Qed.

Lemma ascii_compare_gt_trans (x y z : ascii) :
  Ascii.compare x y = Gt -> Ascii.compare y z = Gt -> Ascii.compare x z = Gt.
Proof.
  unfold Ascii.compare. rewrite !N.compare_gt_iff. intros; now transitivity (N_of_ascii y).
Qed.

Lemma string_compare_gt_trans (a b c : string) :
  String.compare a b = Gt -> String.compare b c = Gt -> String.compare a c = Gt.
Proof.
  revert b c.
  induction a as [|x a IH]; intros [|y b] [|z c]; simpl; try congruence.
  destruct (Ascii.compare x y) eqn:Hxy, (Ascii.compare y z) eqn:Hyz;
    try discriminate; intros Hab Hbc.
  - apply Ascii.compare_eq_iff in Hxy, Hyz; subst.
    rewrite ascii_compare_refl. eauto.
  - apply Ascii.compare_eq_iff in Hxy; subst. now rewrite Hyz.
  - apply Ascii.compare_eq_iff in Hyz; subst. now rewrite Hxy.
  - now rewrite (ascii_compare_gt_trans x y z).
Qed.

Lemma string_gt_trans (a b c : string) :
  JsString.gt a b = true -> JsString.gt b c = true -> JsString.gt a c = true.
Proof.
  unfold JsString.gt.
  destruct (String.compare a b) eqn:Hab; try discriminate.
  destruct (String.compare b c) eqn:Hbc; try discriminate.
  now rewrite (string_compare_gt_trans a b c).
Qed.

Lemma string_gt_irrefl (a : string) : JsString.gt a a = false.
Proof. unfold JsString.gt. now rewrite string_compare_refl. Qed.

(** Two different strings are ordered one way or the other. *)
Lemma string_gt_swap (a b : string) :
  String.eqb a b = false -> JsString.gt b a = negb (JsString.gt a b).
Proof.
  intros Hne. apply String.eqb_neq in Hne.
  unfold JsString.gt. rewrite (String.compare_antisym b a).
  destruct (String.compare a b) eqn:Hab; simpl; try reflexivity.
  apply String.compare_eq_iff in Hab. contradiction.
Qed.

Lemma number_strictEq_eq (x y : number) : JsNumber.strictEq x y = true -> x = y.
Proof.
  destruct x, y; simpl; try discriminate; try reflexivity.
  intros H. apply Z.eqb_eq in H. now subst.
Qed.

Lemma number_strictEq_refl (x : number) : x <> NaN -> JsNumber.strictEq x x = true.
Proof. destruct x; simpl; try congruence. intros _. apply Z.eqb_refl. Qed.

Lemma number_strictEq_sym (x y : number) :
  JsNumber.strictEq y x = JsNumber.strictEq x y.
Proof. destruct x, y; simpl; try reflexivity. apply Z.eqb_sym. Qed.

Lemma number_gt_trans (x y z : number) :
  JsNumber.gt x y = true -> JsNumber.gt y z = true -> JsNumber.gt x z = true.
Proof.
  destruct x, y, z; simpl; try discriminate; try reflexivity.
  rewrite !Z.ltb_lt. lia.
Qed.

Lemma number_gt_irrefl (x : number) : JsNumber.gt x x = false.
Proof. destruct x; simpl; try reflexivity. apply Z.ltb_irrefl. Qed.

(** Two different numbers, none of them NaN, are ordered one way or the
    other. *)
Lemma number_gt_swap (x y : number) :
  x <> NaN -> y <> NaN -> JsNumber.strictEq x y = false ->
  JsNumber.gt y x = negb (JsNumber.gt x y).
Proof.
  destruct x, y; simpl; try congruence; try reflexivity.
  intros _ _ Hne. apply Z.eqb_neq in Hne.
  destruct (z0 <? z) eqn:H1, (z <? z0) eqn:H2; simpl; try reflexivity;
    rewrite ?Z.ltb_lt, ?Z.ltb_ge in *; lia.
Qed.

Lemma roundNat_cases (n : Z) :
  JsNumber.roundNat n = PosInfinity \/ exists v, JsNumber.roundNat n = Finite v.
Proof.
  unfold JsNumber.roundNat.
  destruct (n <? 2 ^ 53); [right; eauto|].
  match goal with |- context [if ?b then PosInfinity else _] => destruct b end;
    [left; reflexivity | right; eauto].
Qed.

Lemma ofInteger_not_NaN (z : Z) : JsNumber.ofInteger z <> NaN.
Proof.
  unfold JsNumber.ofInteger.
  destruct (z <? 0).
  - destruct (roundNat_cases (- z)) as [-> | [v ->]]; discriminate.
  - destruct (roundNat_cases z) as [-> | [v ->]]; discriminate.
Qed.

Lemma readDigits_seen (s : string) (acc : Z) :
  snd (JsNumber.readDigits acc true s) = true.
Proof.
  revert acc. induction s as [|c s IH]; intros acc; simpl; [reflexivity|].
  destruct (JsString.isDigit c); [apply IH | reflexivity].
Qed.

(** Under the guard [/^\d+$/] the call of [parseInt] never gives NaN. *)
Lemma parseInt10_digits (s : string) :
  JsString.isDigitString s = true -> JsNumber.parseInt10 s <> NaN.
Proof.
  destruct s as [|c rest]; [discriminate|].
  unfold JsString.isDigitString. cbn [JsString.allDigits].
  intros H. apply andb_prop in H as [Hc _].
  unfold JsNumber.parseInt10. cbn [JsString.trimStart].
  rewrite (digit_not_whitespace c Hc).
  assert (exists acc,
    (let '(sign, digits) :=
       match String c rest with
       | String "-" rest0 => (-1, rest0)
       | String "+" rest0 => (1, rest0)
       | _ => (1, String c rest)
       end in
     match JsNumber.readDigits 0 false digits with
     | (_, false) => NaN
     | (value, true) => JsNumber.ofInteger (sign * value)
     end) =
    match JsNumber.readDigits acc true rest with
    | (_, false) => NaN
    | (value, true) => JsNumber.ofInteger (1 * value)
    end) as [acc ->].
  { each_ascii c; try discriminate Hc; eexists; cbn; reflexivity. }
  pose proof (readDigits_seen rest acc) as Hseen.
  destruct (JsNumber.readDigits acc true rest) as [value seen]; simpl in Hseen; subst.
  apply ofInteger_not_NaN.
Qed.

(** ** Segments *)

Lemma toSegment_wellFormed (segment : string) : wellFormed (toSegment segment).
Proof.
  unfold wellFormed, toSegment.
  destruct (JsString.isDigitString segment) eqn:Hd; [|discriminate].
  intros H. injection H as H. now apply parseInt10_digits in H.
Qed.

Lemma tokenizeVersion_wellFormed (version : string) :
  Forall wellFormed (tokenizeVersion version).
Proof.
  unfold tokenizeVersion. apply Forall_map, Forall_forall.
  intros segment _. apply toSegment_wellFormed.
Qed.

Lemma zeroSegment_wellFormed : wellFormed zeroSegment.
Proof. discriminate. Qed.

Lemma segmentAt_wellFormed (tokens : list VersionSegment) (index : nat) :
  Forall wellFormed tokens -> wellFormed (segmentAt tokens index).
Proof.
  intros Hall. unfold segmentAt.
  destruct (nth_error tokens index) as [seg|] eqn:Hnth.
  - rewrite Forall_forall in Hall. eapply Hall, nth_error_In, Hnth.
  - apply zeroSegment_wellFormed.
Qed.

Lemma segmentAt_past_end (tokens : list VersionSegment) (index : nat) :
  (List.length tokens <= index)%nat -> segmentAt tokens index = zeroSegment.
Proof.
  intros Hlen. unfold segmentAt.
  now rewrite (proj2 (nth_error_None tokens index) Hlen).
Qed.

Lemma compareSegments_refl (seg : VersionSegment) :
  wellFormed seg -> compareSegments seg seg = None.
Proof.
  destruct seg as [x|x]; simpl; intros Hwf.
  - rewrite number_strictEq_refl; [reflexivity|]. intros ->. now apply Hwf.
  - now rewrite String.eqb_refl.
Qed.

Lemma compareSegments_None (segA segB : VersionSegment) :
  compareSegments segA segB = None -> segA = segB.
Proof.
  destruct segA as [x|x], segB as [y|y]; simpl; try discriminate.
  - destruct (JsNumber.strictEq x y) eqn:He; [|discriminate].
    intros _. f_equal. now apply number_strictEq_eq.
  - destruct (String.eqb x y) eqn:He; [|discriminate].
    intros _. f_equal. now apply String.eqb_eq.
Qed.

Lemma compareSegments_sign (segA segB : VersionSegment) (result : Z) :
  compareSegments segA segB = Some result -> result = 1 \/ result = -1.
Proof.
  destruct segA as [x|x], segB as [y|y]; simpl.
  - destruct (JsNumber.strictEq x y); [discriminate|].
    destruct (JsNumber.gt x y); intros [= <-]; auto.
  - intros [= <-]; auto.
  - intros [= <-]; auto.
  - destruct (String.eqb x y); [discriminate|].
    destruct (JsString.gt x y); intros [= <-]; auto.
Qed.

Lemma compareSegments_swap (segA segB : VersionSegment) :
  wellFormed segA -> wellFormed segB ->
  compareSegments segB segA = option_map Z.opp (compareSegments segA segB).
Proof.
  destruct segA as [x|x], segB as [y|y]; simpl; intros HA HB; try reflexivity.
  - rewrite (number_strictEq_sym x y).
    destruct (JsNumber.strictEq x y) eqn:He; [reflexivity|].
    unfold wellFormed in HA, HB.
    rewrite (number_gt_swap x y) by congruence.
    now destruct (JsNumber.gt x y).
  - rewrite (String.eqb_sym y x).
    destruct (String.eqb x y) eqn:He; [reflexivity|].
    rewrite (string_gt_swap x y He). now destruct (JsString.gt x y).
Qed.

Lemma compareSegments_trans (segA segB segC : VersionSegment) :
  compareSegments segA segB = Some 1 ->
  compareSegments segB segC = Some 1 ->
  compareSegments segA segC = Some 1.
Proof.
  destruct segA as [x|x], segB as [y|y], segC as [z|z]; simpl;
    intros HAB HBC; try discriminate; try reflexivity; revert HAB HBC.
  - destruct (JsNumber.strictEq x y); [discriminate|].
    destruct (JsNumber.gt x y) eqn:Hxy; [|discriminate].
    destruct (JsNumber.strictEq y z); [discriminate|].
    destruct (JsNumber.gt y z) eqn:Hyz; [|discriminate].
    intros _ _. pose proof (number_gt_trans x y z Hxy Hyz) as Hxz.
    destruct (JsNumber.strictEq x z) eqn:He.
    + apply number_strictEq_eq in He. subst.
      rewrite number_gt_irrefl in Hxz. discriminate.
    + now rewrite Hxz.
  - destruct (String.eqb x y); [discriminate|].
    destruct (JsString.gt x y) eqn:Hxy; [|discriminate].
    destruct (String.eqb y z); [discriminate|].
    destruct (JsString.gt y z) eqn:Hyz; [|discriminate].
    intros _ _. pose proof (string_gt_trans x y z Hxy Hyz) as Hxz.
    destruct (String.eqb x z) eqn:He.
    + apply String.eqb_eq in He. subst.
      rewrite string_gt_irrefl in Hxz. discriminate.
    + now rewrite Hxz.
Qed.

(** ** The comparison loop *)

Section Loop.

Variables tokensA tokensB : list VersionSegment.

Lemma compareFrom_all_equal (index remaining : nat) :
  (forall k, (index <= k < index + remaining)%nat -> turn tokensA tokensB k = None) ->
  compareFrom tokensA tokensB index remaining = 0.
Proof.
  revert index. induction remaining as [|remaining IH]; intros index Hall; simpl.
  - reflexivity.
  - rewrite (Hall index) by lia.
    apply IH. intros k Hk. apply Hall. lia.
Qed.

Lemma compareFrom_first (index remaining j : nat) (result : Z) :
  (index <= j < index + remaining)%nat ->
  (forall k, (index <= k < j)%nat -> turn tokensA tokensB k = None) ->
  turn tokensA tokensB j = Some result ->
  compareFrom tokensA tokensB index remaining = result.
Proof.
  revert index. induction remaining as [|remaining IH]; intros index Hj Hbefore Hat.
  - lia.
  - simpl.
    destruct (Nat.eq_dec index j) as [->|Hne].
    + now rewrite Hat.
    + rewrite (Hbefore index) by lia.
      apply IH; [lia | | assumption].
      intros k Hk. apply Hbefore. lia.
Qed.

Lemma turn_past_end (k : nat) :
  (Nat.max (List.length tokensA) (List.length tokensB) <= k)%nat -> turn tokensA tokensB k = None.
Proof.
  intros Hk. unfold turn.
  rewrite !segmentAt_past_end by lia. reflexivity.
Qed.

(** The loop returns at the first index where the body returns. *)
Lemma compareTokens_first (j : nat) (result : Z) :
  (forall k, (k < j)%nat -> turn tokensA tokensB k = None) ->
  turn tokensA tokensB j = Some result ->
  compareTokens tokensA tokensB = result.
Proof.
  intros Hbefore Hat. unfold compareTokens.
  apply (compareFrom_first 0 _ j).
  - destruct (Nat.lt_ge_cases j (Nat.max (List.length tokensA) (List.length tokensB)))
      as [Hlt|Hge]; [lia|].
    rewrite (turn_past_end j Hge) in Hat. discriminate.
  - intros k Hk. apply Hbefore. lia.
  - assumption.
Qed.

Lemma compareTokens_all_equal :
  (forall k, turn tokensA tokensB k = None) -> compareTokens tokensA tokensB = 0.
Proof. intros Hall. apply compareFrom_all_equal. intros k _. apply Hall. Qed.

(** Either no index discriminates, or there is a first one that does. *)
Lemma turns_cases (bound : nat) :
  (forall k, (k < bound)%nat -> turn tokensA tokensB k = None) \/
  exists j result,
    (j < bound)%nat /\ (forall k, (k < j)%nat -> turn tokensA tokensB k = None) /\
    turn tokensA tokensB j = Some result.
Proof.
  induction bound as [|bound [Hall | (j & result & Hj & Hbefore & Hat)]].
  - left. intros k Hk. lia.
  - destruct (turn tokensA tokensB bound) as [result|] eqn:Hat.
    + right. exists bound, result. auto.
    + left. intros k Hk.
      destruct (Nat.eq_dec k bound) as [->|Hne]; [assumption | apply Hall; lia].
  - right. exists j, result. auto.
Qed.

Lemma compareTokens_cases :
  (compareTokens tokensA tokensB = 0 /\ forall k, turn tokensA tokensB k = None) \/
  exists j result,
    (forall k, (k < j)%nat -> turn tokensA tokensB k = None) /\
    turn tokensA tokensB j = Some result /\
    compareTokens tokensA tokensB = result.
Proof.
  destruct (turns_cases (Nat.max (List.length tokensA) (List.length tokensB)))
    as [Hall | (j & result & Hj & Hbefore & Hat)].
  - assert (forall k, turn tokensA tokensB k = None) as Hall'.
    { intros k.
      destruct (Nat.lt_ge_cases k (Nat.max (List.length tokensA) (List.length tokensB)));
        [now apply Hall | now apply turn_past_end]. }
    left. split; [now apply compareTokens_all_equal | assumption].
  - right. exists j, result. repeat split; try assumption.
    now apply (compareTokens_first j).
Qed.

End Loop.

(** ** The comparator on token lists *)

Lemma compareTokens_sign (tokensA tokensB : list VersionSegment) :
  compareTokens tokensA tokensB = 0 \/
  compareTokens tokensA tokensB = 1 \/
  compareTokens tokensA tokensB = -1.
Proof.
  destruct (compareTokens_cases tokensA tokensB)
    as [[Hzero _] | (j & result & _ & Hat & Hres)]; [now left|].
  right. rewrite Hres. unfold turn in Hat. eapply compareSegments_sign, Hat.
Qed.

Lemma compareTokens_positive (tokensA tokensB : list VersionSegment) :
  compareTokens tokensA tokensB > 0 ->
  exists j,
    (forall k, (k < j)%nat -> turn tokensA tokensB k = None) /\
    turn tokensA tokensB j = Some 1.
Proof.
  intros Hpos.
  destruct (compareTokens_cases tokensA tokensB)
    as [[Hzero _] | (j & result & Hbefore & Hat & Hres)]; [lia|].
  exists j. split; [assumption|].
  destruct (compareSegments_sign _ _ _ Hat) as [-> | ->]; [assumption | lia].
Qed.

Lemma compareTokens_refl (tokens : list VersionSegment) :
  Forall wellFormed tokens -> compareTokens tokens tokens = 0.
Proof.
  intros Hwf. apply compareTokens_all_equal. intros k.
  apply compareSegments_refl, segmentAt_wellFormed, Hwf.
Qed.

Lemma turn_swap (tokensA tokensB : list VersionSegment) (k : nat) :
  Forall wellFormed tokensA -> Forall wellFormed tokensB ->
  turn tokensB tokensA k = option_map Z.opp (turn tokensA tokensB k).
Proof.
  intros HA HB. apply compareSegments_swap; now apply segmentAt_wellFormed.
Qed.

Lemma compareTokens_antisym (tokensA tokensB : list VersionSegment) :
  Forall wellFormed tokensA -> Forall wellFormed tokensB ->
  compareTokens tokensA tokensB = - compareTokens tokensB tokensA.
Proof.
  intros HA HB.
  destruct (compareTokens_cases tokensA tokensB)
    as [[Hzero Hall] | (j & result & Hbefore & Hat & Hres)].
  - rewrite Hzero, (compareTokens_all_equal tokensB tokensA); [reflexivity|].
    intros k. now rewrite (turn_swap tokensA tokensB), Hall.
  - rewrite Hres, (compareTokens_first tokensB tokensA j (- result)); [lia | |].
    + intros k Hk. now rewrite (turn_swap tokensA tokensB), Hbefore.
    + now rewrite (turn_swap tokensA tokensB), Hat.
Qed.

Lemma compareTokens_trans (tokensA tokensB tokensC : list VersionSegment) :
  Forall wellFormed tokensA ->
  compareTokens tokensA tokensB > 0 ->
  compareTokens tokensB tokensC > 0 ->
  compareTokens tokensA tokensC > 0.
Proof.
  intros HA HAB HBC.
  apply compareTokens_positive in HAB as (i & Hi & Hati).
  apply compareTokens_positive in HBC as (j & Hj & Hatj).
  assert (forall k, (k < i)%nat -> segmentAt tokensA k = segmentAt tokensB k) as Ei
    by (intros k Hk; apply compareSegments_None, Hi, Hk).
  assert (forall k, (k < j)%nat -> segmentAt tokensB k = segmentAt tokensC k) as Ej
    by (intros k Hk; apply compareSegments_None, Hj, Hk).
  assert (forall k, (k < Nat.min i j)%nat -> turn tokensA tokensC k = None) as Hbefore.
  { intros k Hk. unfold turn. rewrite <- Ej, <- Ei by lia.
    apply compareSegments_refl, segmentAt_wellFormed, HA. }
  rewrite (compareTokens_first tokensA tokensC (Nat.min i j) 1 Hbefore); [lia|].
  unfold turn in *.
  destruct (Nat.lt_total i j) as [Hlt | [-> | Hgt]].
  - rewrite Nat.min_l, <- Ej by lia. assumption.
  - rewrite Nat.min_id. eapply compareSegments_trans; eassumption.
  - rewrite Nat.min_r, Ei by lia. assumption.
Qed.

(** The loop, read off the two token lists from their heads. *)
Lemma compareFrom_tail (a b : VersionSegment) (tokensA tokensB : list VersionSegment)
    (index remaining : nat) :
  compareFrom (a :: tokensA) (b :: tokensB) (S index) remaining =
  compareFrom tokensA tokensB index remaining.
Proof.
  revert index. induction remaining as [|remaining IH]; intros index; simpl.
  - reflexivity.
  - rewrite IH. reflexivity.
Qed.

Lemma compareFrom_tail_l (b : VersionSegment) (tokensB : list VersionSegment)
    (index remaining : nat) :
  compareFrom [] (b :: tokensB) (S index) remaining =
  compareFrom [] tokensB index remaining.
Proof.
  revert index. induction remaining as [|remaining IH]; intros index; simpl.
  - reflexivity.
  - rewrite IH. unfold turn, segmentAt. simpl.
    now destruct index.
Qed.

Lemma compareFrom_tail_r (a : VersionSegment) (tokensA : list VersionSegment)
    (index remaining : nat) :
  compareFrom (a :: tokensA) [] (S index) remaining =
  compareFrom tokensA [] index remaining.
Proof.
  revert index. induction remaining as [|remaining IH]; intros index; simpl.
  - reflexivity.
  - rewrite IH. unfold turn, segmentAt. simpl.
    now destruct index.
Qed.

(** The three equations by which [compareTokens] walks two lists. *)
Lemma compareTokens_cons (a b : VersionSegment) (tokensA tokensB : list VersionSegment) :
  compareTokens (a :: tokensA) (b :: tokensB) =
  match compareSegments a b with
  | Some result => result
  | None => compareTokens tokensA tokensB
  end.
Proof.
  unfold compareTokens. simpl. unfold turn at 1. simpl.
  now rewrite compareFrom_tail.
Qed.

Lemma compareTokens_nil_l (b : VersionSegment) (tokensB : list VersionSegment) :
  compareTokens [] (b :: tokensB) =
  match compareSegments zeroSegment b with
  | Some result => result
  | None => compareTokens [] tokensB
  end.
Proof.
  unfold compareTokens. simpl. unfold turn at 1. simpl.
  now rewrite compareFrom_tail_l.
Qed.

Lemma compareTokens_nil_r (a : VersionSegment) (tokensA : list VersionSegment) :
  compareTokens (a :: tokensA) [] =
  match compareSegments a zeroSegment with
  | Some result => result
  | None => compareTokens tokensA []
  end.
Proof.
  unfold compareTokens. simpl. unfold turn at 1. simpl.
  rewrite compareFrom_tail_r. now rewrite Nat.max_0_r.
Qed.

Lemma spec_compare_refines (tokensA tokensB : list VersionSegment) :
  compareTokens tokensA tokensB = spec_compare tokensA tokensB.
Proof.
  unfold spec_compare, spec_pad.
  revert tokensB. induction tokensA as [|a tokensA IH]; intros tokensB.
  - induction tokensB as [|b tokensB IHB]; [reflexivity|].
    rewrite compareTokens_nil_l, IHB. cbn [List.length Nat.max app].
    rewrite !Nat.sub_0_r, !Nat.sub_diag. reflexivity.
  - destruct tokensB as [|b tokensB].
    + rewrite compareTokens_nil_r, IH. cbn [List.length Nat.max app].
      rewrite !Nat.max_0_r, !Nat.sub_0_r, !Nat.sub_diag. reflexivity.
    + rewrite compareTokens_cons, IH. reflexivity.
Qed.

Lemma split_not_nil (s : string) : JsString.split s <> [].
Proof.
  destruct s as [|c rest]; simpl; [discriminate|].
  destruct (JsString.isSeparator c); [discriminate|].
  destruct (JsString.split rest); discriminate.
Qed.

Lemma split_append_dot_zero (s : string) :
  JsString.split (s ++ ".0") = (JsString.split s ++ ["0"])%list.
Proof.
  induction s as [|c rest IH]; [reflexivity|].
  simpl. rewrite IH.
  destruct (JsString.isSeparator c); [reflexivity|].
  pose proof (split_not_nil rest) as Hne.
  destruct (JsString.split rest); [contradiction | reflexivity].
Qed.

Lemma tokenizeVersion_append_dot_zero (version : string) :
  tokenizeVersion (version ++ ".0") = (tokenizeVersion version ++ [zeroSegment])%list.
Proof.
  unfold tokenizeVersion.
  rewrite split_append_dot_zero, map_app, filter_app, map_app. reflexivity.
Qed.

Lemma segmentAt_app_zero (tokens : list VersionSegment) (index : nat) :
  segmentAt (tokens ++ [zeroSegment]) index = segmentAt tokens index.
Proof.
  unfold segmentAt.
  destruct (Nat.lt_ge_cases index (List.length tokens)) as [Hlt|Hge].
  - now rewrite nth_error_app1.
  - rewrite nth_error_app2 by assumption.
    rewrite (proj2 (nth_error_None tokens index) Hge).
    destruct (index - List.length tokens)%nat as [|[|n]]; reflexivity.
Qed.

Lemma compareTokens_app_zero (tokens : list VersionSegment) :
  Forall wellFormed tokens ->
  compareTokens tokens (tokens ++ [zeroSegment]) = 0.
Proof.
  intros Hwf. apply compareTokens_all_equal. intros k.
  unfold turn. rewrite segmentAt_app_zero.
  apply compareSegments_refl, segmentAt_wellFormed, Hwf.
Qed.

(** ** The claims about the comparator *)

(** C2.  At the first discriminating position, a numeric segment against a
    string segment decides for the numeric one: when the positions before
    [i] do not discriminate and position [i] holds a number for [a] and a
    string for [b], [compareVersionStrings a b] is [1] and
    [compareVersionStrings b a] is [-1]; in particular ["1.0.0"] against
    ["1.0.beta"] gives [1]. *)
Theorem numeric_segment_outranks_string :
  (forall (a b : string) (i : nat) (x : number) (y : string),
     (forall k, (k < i)%nat ->
        turn (tokenizeVersion a) (tokenizeVersion b) k = None) ->
     segmentAt (tokenizeVersion a) i = SegNumber x ->
     segmentAt (tokenizeVersion b) i = SegString y ->
     compareVersionStrings a b = 1 /\ compareVersionStrings b a = -1) /\
  compareVersionStrings "1.0.0" "1.0.beta" = 1 /\
  compareVersionStrings "1.0.0" "1.0.beta" > 0.
Proof.
  split; [|split; reflexivity].
  intros a b i x y Hbefore HA HB.
  assert (compareVersionStrings a b = 1) as Hab.
  { unfold compareVersionStrings. apply (compareTokens_first _ _ i); [assumption|].
    unfold turn. now rewrite HA, HB. }
  split; [assumption|].
  unfold compareVersionStrings in *.
  rewrite (compareTokens_antisym (tokenizeVersion b) (tokenizeVersion a))
    by apply tokenizeVersion_wellFormed.
  now rewrite Hab.
Qed.

Lemma numeric_segment_outranks_string_witness :
  compareVersionStrings "1.0.0" "1.0.beta" = 1 /\
  compareVersionStrings "1.0.beta" "1.0.0" = -1.
Proof.
  apply (proj1 numeric_segment_outranks_string "1.0.0" "1.0.beta" 2%nat (Finite 0) "beta").
  - intros k Hk. destruct k as [|[|k]]; [reflexivity | reflexivity | lia].
  - reflexivity.
  - reflexivity.
Defined.

(** C3, as the code has it.  A position missing from the shorter list
    stands for the number zero, and a number outranks a string: ["1.0"]
    compares strictly greater than ["1.0-beta"], and ["1.0-beta"] strictly
    smaller than ["1.0"]. *)
Theorem release_outranks_trailing_qualifier :
  compareVersionStrings "1.0" "1.0-beta" = 1 /\
  compareVersionStrings "1.0-beta" "1.0" = -1.
Proof. split; reflexivity. Qed.

(** C3, as stated, fails: the comparison of ["1.0"] with ["1.0-beta"] is
    positive. *)
Lemma release_not_above_qualifier_fails :
  ~ (compareVersionStrings "1.0" "1.0-beta" <= 0).
Proof. vm_compute. intros H. now apply H. Qed.

(** C4.  [compareVersionStrings] is reflexive, antisymmetric in the sense
    that swapping the arguments negates the result, and transitive on
    strictly greater. *)
Theorem compareVersionStrings_total_order (a b c : string) :
  compareVersionStrings a a = 0 /\
  compareVersionStrings a b = - compareVersionStrings b a /\
  (compareVersionStrings a b > 0 ->
   compareVersionStrings b c > 0 ->
   compareVersionStrings a c > 0).
Proof.
  unfold compareVersionStrings. repeat split.
  - apply compareTokens_refl, tokenizeVersion_wellFormed.
  - apply compareTokens_antisym; apply tokenizeVersion_wellFormed.
  - apply compareTokens_trans, tokenizeVersion_wellFormed.
Qed.

Lemma compareVersionStrings_total_order_witness :
  compareVersionStrings "2.0-rc" "1.10" > 0 /\
  compareVersionStrings "1.10" "1.9.beta" > 0 /\
  compareVersionStrings "2.0-rc" "1.9.beta" > 0.
Proof.
  split; [reflexivity|]. split; [reflexivity|].
  apply (proj2 (proj2 (compareVersionStrings_total_order "2.0-rc" "1.10" "1.9.beta")));
    reflexivity.
Defined.

(** C5.  The comparison is the one of the two token lists padded with
    numeric-zero segments to the same length, so a missing position
    compares as the number zero; and a version string compares equal to
    itself followed by [".0"]. *)
Theorem missing_positions_are_zero :
  (forall a b : string,
     compareVersionStrings a b =
     spec_compare (tokenizeVersion a) (tokenizeVersion b)) /\
  (forall (tokens : list VersionSegment) (index : nat),
     nth_error tokens index = None -> segmentAt tokens index = SegNumber (Finite 0)) /\
  (forall a : string, compareVersionStrings a (a ++ ".0") = 0) /\
  compareVersionStrings "1.0" "1.0.0" = 0.
Proof.
  repeat split.
  - intros a b. apply spec_compare_refines.
  - intros tokens index Hnone. unfold segmentAt. now rewrite Hnone.
  - intros a. unfold compareVersionStrings.
    rewrite tokenizeVersion_append_dot_zero.
    apply compareTokens_app_zero, tokenizeVersion_wellFormed.
Qed.

Lemma missing_positions_are_zero_witness :
  segmentAt (tokenizeVersion "1.0") 2 = SegNumber (Finite 0).
Proof.
  apply (proj1 (proj2 missing_positions_are_zero) (tokenizeVersion "1.0") 2%nat).
  reflexivity.
Defined.

(** ** Trimming *)

Lemma nonEmpty_true (s : string) : JsString.nonEmpty s = true <-> s <> "".
Proof. destruct s; simpl; split; congruence. Qed.

Lemma nonEmpty_false (s : string) : JsString.nonEmpty s = false <-> s = "".
Proof. destruct s; simpl; split; congruence. Qed.

Lemma append_empty_r (s : string) : s ++ "" = s.
Proof. induction s as [|c s IH]; simpl; [reflexivity | now rewrite IH]. Qed.

Lemma trimStart_cleanStart (s : string) : cleanStart (JsString.trimStart s).
Proof.
  induction s as [|c s IH]; simpl; [exact I|].
  destruct (JsString.isWhiteSpace c) eqn:Hc; [assumption | exact Hc].
Qed.

Lemma trimStart_fixed (s : string) : cleanStart s -> JsString.trimStart s = s.
Proof. destruct s as [|c s]; simpl; [reflexivity|]. now intros ->. Qed.

Lemma trimEnd_cleanStart (s : string) : cleanStart s -> cleanStart (JsString.trimEnd s).
Proof.
  destruct s as [|c s]; simpl; [trivial|]. intros Hc.
  destruct (JsString.trimEnd s); [rewrite Hc|]; exact Hc.
Qed.

Lemma trimEnd_idempotent (s : string) :
  JsString.trimEnd (JsString.trimEnd s) = JsString.trimEnd s.
Proof.
  induction s as [|c s IH]; [reflexivity|].
  cbn [JsString.trimEnd].
  destruct (JsString.trimEnd s) as [|d kept] eqn:Hs.
  - destruct (JsString.isWhiteSpace c) eqn:Hc; [reflexivity|].
    simpl. now rewrite Hc.
  - change (JsString.trimEnd (String c (String d kept)))
      with (match JsString.trimEnd (String d kept) with
            | EmptyString =>
                if JsString.isWhiteSpace c then EmptyString else String c EmptyString
            | String e more => String c (String e more)
            end).
    now rewrite IH.
Qed.

Lemma trim_idempotent (s : string) : JsString.trim (JsString.trim s) = JsString.trim s.
Proof.
  unfold JsString.trim.
  rewrite (trimStart_fixed (JsString.trimEnd (JsString.trimStart s))).
  - apply trimEnd_idempotent.
  - apply trimEnd_cleanStart, trimStart_cleanStart.
Qed.

Lemma trimmedOrEmpty_trimmed (value : option string) :
  JsString.trim (trimmedOrEmpty value) = trimmedOrEmpty value.
Proof. destruct value; simpl; [apply trim_idempotent | reflexivity]. Qed.

(** ** Trees *)

Lemma Node_nested_ind (P : Node -> Prop) :
  (forall data, P (Text data)) ->
  (forall name attrs nodes, Forall P nodes -> P (Element name attrs nodes)) ->
  forall n, P n.
Proof.
  intros HText HElement. fix IH 1.
  intros [name attrs nodes | data]; [|apply HText].
  apply HElement.
  induction nodes as [|n nodes IHnodes]; constructor; [apply IH | apply IHnodes].
Qed.

Lemma flat_map_nil {A B : Type} (f : A -> list B) (l : list A) :
  Forall (fun x => f x = []) l -> flat_map f l = [].
Proof.
  induction 1 as [|x l Hx _ IH]; simpl; [reflexivity|]. now rewrite Hx, IH.
Qed.

Lemma filter_nil_app {A : Type} (p : A -> bool) (l1 l2 : list A) :
  filter p (l1 ++ l2) = [] -> filter p l1 = [] /\ filter p l2 = [].
Proof. rewrite filter_app. apply app_eq_nil. Qed.

Lemma elementsNamed_children (name localName : string)
    (attrs : list (string * string)) (nodes : list Node) :
  elementsNamed name [Element localName attrs nodes] = [] ->
  String.eqb localName name = false /\
  Forall (fun child => elementsNamed name [child] = []) nodes.
Proof.
  unfold elementsNamed. simpl. rewrite app_nil_r.
  destruct (String.eqb localName name); [discriminate|].
  intros Hnone. split; [reflexivity|].
  induction nodes as [|child nodes IH]; constructor.
  - simpl in *. rewrite app_nil_r. now apply filter_nil_app in Hnone.
  - apply IH. simpl in Hnone. now apply filter_nil_app in Hnone.
Qed.

(** Without a [channel] element no element matches [channel > item]. *)
Lemma channelItemsIn_no_channel (n : Node) :
  elementsNamed "channel" [n] = [] -> channelItemsIn false n = [].
Proof.
  induction n as [data | name attrs nodes IH] using Node_nested_ind;
    [reflexivity|].
  intros Hnone. apply elementsNamed_children in Hnone as [Hname Hnodes].
  cbn [channelItemsIn andb app]. rewrite Hname.
  apply flat_map_nil.
  rewrite Forall_forall in *. intros child Hin. apply IH; auto.
Qed.

(** Without an [item] element no element matches [channel > item]. *)
Lemma channelItemsIn_no_item (n : Node) (inChannel : bool) :
  elementsNamed "item" [n] = [] -> channelItemsIn inChannel n = [].
Proof.
  revert inChannel.
  induction n as [data | name attrs nodes IH] using Node_nested_ind;
    intros inChannel; [reflexivity|].
  intros Hnone. apply elementsNamed_children in Hnone as [Hname Hnodes].
  cbn [channelItemsIn]. rewrite Hname, andb_false_r, app_nil_l.
  apply flat_map_nil.
  rewrite Forall_forall in *. intros child Hin. apply IH; auto.
Qed.

Lemma elementsNamed_each (name : string) (nodes : list Node) :
  elementsNamed name nodes = [] ->
  Forall (fun n => elementsNamed name [n] = []) nodes.
Proof.
  unfold elementsNamed.
  induction nodes as [|n nodes IH]; intros Hnone; constructor; simpl in *.
  - rewrite app_nil_r. now apply filter_nil_app in Hnone.
  - apply IH. now apply filter_nil_app in Hnone.
Qed.

Lemma no_wrapping_no_items (xml : Document) :
  elementsNamed "channel" xml = [] \/ elementsNamed "item" xml = [] ->
  querySelectorAll_channel_item xml = [].
Proof.
  unfold querySelectorAll_channel_item.
  intros [Hnone | Hnone]; apply elementsNamed_each in Hnone;
    apply flat_map_nil; rewrite Forall_forall in *; intros n Hin.
  - now apply channelItemsIn_no_channel, Hnone.
  - now apply channelItemsIn_no_item, Hnone.
Qed.

Lemma channelItems_releaseItem (attrs : list (string * string)) (date : option string) :
  channelItemsIn true (releaseItem attrs date) = [releaseItem attrs date].
Proof. destruct date; reflexivity. Qed.

Lemma channelItems_appcast (items : list Node) :
  querySelectorAll_channel_item (appcast items) = flat_map (channelItemsIn true) items.
Proof.
  unfold querySelectorAll_channel_item, appcast. simpl.
  now rewrite !app_nil_r.
Qed.

(** ** The selector *)

Lemma truthy_Some (value : option string) (text : string) :
  truthy value = Some text -> value = Some text /\ text <> "".
Proof.
  destruct value as [s|]; simpl; [|discriminate].
  destruct (JsString.nonEmpty s) eqn:Hs; [|discriminate].
  intros [= <-]. split; [reflexivity | now apply nonEmpty_true].
Qed.

Lemma truthy_of_nonEmpty (text : string) : text <> "" -> truthy (Some text) = Some text.
Proof. intros H. simpl. now rewrite (proj2 (nonEmpty_true text) H). Qed.

(** The loop body keeps [latest] or replaces it by the candidate. *)
Lemma consider_choice (best candidate : SparkleReleaseCandidate) :
  consider (Some best) candidate = Some best \/
  consider (Some best) candidate = Some candidate.
Proof.
  unfold consider, laterByDate.
  destruct (truthy (versionKey candidate)), (truthy (versionKey best));
    repeat match goal with
           | |- context [if ?b then _ else _] => destruct b
           end; auto.
Qed.

Lemma comparatorCall_nonEmpty (latest : option SparkleReleaseCandidate)
    (candidate : SparkleReleaseCandidate) :
  Forall (fun call => fst call <> "" /\ snd call <> "")
    (comparatorCall latest candidate).
Proof.
  unfold comparatorCall. destruct latest as [best|]; [|constructor].
  destruct (truthy (versionKey candidate)) as [candidateKey|] eqn:Hc; [|constructor].
  destruct (truthy (versionKey best)) as [latestKey|] eqn:Hb; constructor; [|constructor].
  apply truthy_Some in Hc, Hb. simpl. tauto.
Qed.

Section SelectorProperties.

Variable Date_parse : string -> number.

Lemma candidateOf_wellBuilt (item : Node) (candidate : SparkleReleaseCandidate) :
  candidateOf Date_parse item = Some candidate -> wellBuilt candidate.
Proof.
  unfold candidateOf.
  destruct (querySelector "enclosure" item) as [enclosure|]; [|discriminate].
  destruct (getAttribute "url" enclosure) as [url|]; [|discriminate].
  cbn [option_map].
  destruct (JsString.nonEmpty (JsString.trim url)) eqn:Hurl; [|discriminate].
  cbn [negb]. intros [= <-]. unfold wellBuilt. cbn.
  split; [now apply nonEmpty_true|]. split; [apply trim_idempotent|].
  intros key.
  destruct (JsString.nonEmpty (trimmedOrEmpty (getAttribute "sparkle:version" enclosure)))
    eqn:Hv.
  - intros [= <-]. split; [now apply nonEmpty_true | apply trimmedOrEmpty_trimmed].
  - destruct (JsString.nonEmpty
                (trimmedOrEmpty (getAttribute "sparkle:shortVersionString" enclosure)))
      eqn:Hs; [|discriminate].
    intros [= <-]. split; [now apply nonEmpty_true | apply trimmedOrEmpty_trimmed].
Qed.

Lemma candidateOf_unusable (item : Node) :
  candidateOf Date_parse item = None <-> unusable item.
Proof.
  unfold candidateOf, unusable.
  destruct (querySelector "enclosure" item) as [enclosure|]; [|tauto].
  destruct (getAttribute "url" enclosure) as [url|] eqn:Hattr; cbn [option_map].
  - destruct (JsString.nonEmpty (JsString.trim url)) eqn:Hurl; cbn [negb].
    + apply nonEmpty_true in Hurl. split; [discriminate|].
      intros [Hnone | (e & He & [Hnone | (u & Hu & Hempty)])];
        congruence.
    + apply nonEmpty_false in Hurl. split; [|reflexivity].
      intros _. right. exists enclosure. split; [reflexivity|].
      right. exists url. auto.
  - split; [|reflexivity]. intros _. right. exists enclosure. auto.
Qed.

Lemma visit_unusable (latest : option SparkleReleaseCandidate) (item : Node) :
  unusable item -> visit Date_parse latest item = latest.
Proof.
  intros H. apply candidateOf_unusable in H. unfold visit. now rewrite H.
Qed.

Lemma visit_stays_Some (best : SparkleReleaseCandidate) (item : Node) :
  exists best', visit Date_parse (Some best) item = Some best'.
Proof.
  unfold visit. destruct (candidateOf Date_parse item) as [candidate|]; [|eauto].
  destruct (consider_choice best candidate) as [-> | ->]; eauto.
Qed.

Lemma fold_visit_stays_Some (items : list Node) (best : SparkleReleaseCandidate) :
  exists best', fold_left (visit Date_parse) items (Some best) = Some best'.
Proof.
  revert best. induction items as [|item items IH]; intros best; simpl; [eauto|].
  destruct (visit_stays_Some best item) as [best' ->]. apply IH.
Qed.

Lemma latestAfter_None (items : list Node) :
  latestAfter Date_parse items = None <->
  forall item, In item items -> unusable item.
Proof.
  unfold latestAfter. induction items as [|item items IH]; simpl.
  - split; [intros _ item [] | reflexivity].
  - destruct (candidateOf Date_parse item) as [candidate|] eqn:Hc.
    + unfold visit at 2. rewrite Hc. cbn [consider].
      destruct (fold_visit_stays_Some items candidate) as [best' ->].
      split; [discriminate|]. intros Hall.
      assert (unusable item) as Hu by (apply Hall; now left).
      apply candidateOf_unusable in Hu. congruence.
    + unfold visit at 2. rewrite Hc. rewrite IH.
      split.
      * intros Hall x [<- | Hin]; [now apply candidateOf_unusable | now apply Hall].
      * intros Hall x Hin. apply Hall. now right.
Qed.

Lemma fold_visit_wellBuilt (items : list Node) (start : option SparkleReleaseCandidate) :
  (forall best, start = Some best -> wellBuilt best) ->
  forall best, fold_left (visit Date_parse) items start = Some best -> wellBuilt best.
Proof.
  revert start. induction items as [|item items IH]; intros start Hstart; simpl.
  - assumption.
  - apply IH. intros best. unfold visit.
    destruct (candidateOf Date_parse item) as [candidate|] eqn:Hc; [|apply Hstart].
    apply candidateOf_wellBuilt in Hc.
    destruct start as [previous|].
    + destruct (consider_choice previous candidate) as [-> | ->]; intros [= <-];
        [now apply Hstart | assumption].
    + cbn [consider]. now intros [= <-].
Qed.

Lemma fold_visitLogged_fst (items : list Node)
    (state : option SparkleReleaseCandidate * list (string * string)) :
  fst (fold_left (visitLogged Date_parse) items state) =
  fold_left (visit Date_parse) items (fst state).
Proof.
  revert state. induction items as [|item items IH]; intros state; simpl; [reflexivity|].
  rewrite IH. f_equal. unfold visitLogged, visit.
  now destruct (candidateOf Date_parse item).
Qed.

Lemma fold_visitLogged_calls (items : list Node)
    (state : option SparkleReleaseCandidate * list (string * string)) :
  Forall (fun call => fst call <> "" /\ snd call <> "") (snd state) ->
  Forall (fun call => fst call <> "" /\ snd call <> "")
    (snd (fold_left (visitLogged Date_parse) items state)).
Proof.
  revert state. induction items as [|item items IH]; intros state Hstate; simpl;
    [assumption|].
  apply IH. unfold visitLogged.
  destruct (candidateOf Date_parse item) as [candidate|]; [|assumption].
  cbn [snd]. apply Forall_app. split; [assumption | apply comparatorCall_nonEmpty].
Qed.

Lemma querySelector_enclosure_releaseItem (attrs : list (string * string))
    (date : option string) :
  querySelector "enclosure" (releaseItem attrs date) = Some (Element "enclosure" attrs []).
Proof. reflexivity. Qed.

Lemma pubDateOf_dated (attrs : list (string * string)) (text : string) :
  pubDateOf Date_parse (releaseItem attrs (Some text)) =
  if JsString.nonEmpty (JsString.trim text)
  then if JsNumber.isNaN (Date_parse (JsString.trim text)) then None
       else Some (Date_parse (JsString.trim text))
  else None.
Proof.
  unfold pubDateOf.
  change (querySelector "pubDate" (releaseItem attrs (Some text)))
    with (Some (Element "pubDate" [] [Text text])).
  cbn [textContent fold_right]. rewrite append_empty_r.
  now destruct (JsString.nonEmpty (JsString.trim text)).
Qed.

Lemma pubDateOf_undated (attrs : list (string * string)) :
  pubDateOf Date_parse (releaseItem attrs None) = None.
Proof. reflexivity. Qed.

Lemma candidateOf_versionedItem (url identifier : string) (date : option string) :
  JsString.trim url <> "" -> JsString.trim identifier <> "" ->
  candidateOf Date_parse (versionedItem url identifier date) =
  Some {| versionKey := Some (JsString.trim identifier);
          displayVersion := JsString.trim identifier;
          candidateUrl := JsString.trim url;
          pubDate := pubDateOf Date_parse (versionedItem url identifier date) |}.
Proof.
  intros Hurl Hid. apply nonEmpty_true in Hurl, Hid.
  unfold candidateOf, versionedItem.
  rewrite querySelector_enclosure_releaseItem.
  cbn [getAttribute lookupAttribute String.eqb Ascii.eqb Bool.eqb option_map
       trimmedOrEmpty].
  rewrite Hurl. cbn [negb JsString.nonEmpty]. rewrite Hid. reflexivity.
Qed.

Lemma candidateOf_bareItem (url : string) (date : option string) :
  JsString.trim url <> "" ->
  candidateOf Date_parse (bareItem url date) =
  Some {| versionKey := None;
          displayVersion := "";
          candidateUrl := JsString.trim url;
          pubDate := pubDateOf Date_parse (bareItem url date) |}.
Proof.
  intros Hurl. apply nonEmpty_true in Hurl.
  unfold candidateOf, bareItem.
  rewrite querySelector_enclosure_releaseItem.
  cbn [getAttribute lookupAttribute String.eqb Ascii.eqb Bool.eqb option_map
       trimmedOrEmpty].
  rewrite Hurl. reflexivity.
Qed.

End SelectorProperties.

Lemma channelItems_versionedItem (url identifier : string) (date : option string) :
  channelItemsIn true (versionedItem url identifier date) =
  [versionedItem url identifier date].
Proof. apply channelItems_releaseItem. Qed.

Lemma channelItems_bareItem (url : string) (date : option string) :
  channelItemsIn true (bareItem url date) = [bareItem url date].
Proof. apply channelItems_releaseItem. Qed.

Lemma consider_first (candidate : SparkleReleaseCandidate) :
  consider None candidate = Some candidate.
Proof. reflexivity. Qed.

Lemma consider_tied (best candidate : SparkleReleaseCandidate) :
  wellBuilt best -> wellBuilt candidate -> tied best candidate ->
  consider (Some best) candidate = Some (laterByDate best candidate).
Proof.
  intros (_ & _ & Hbest) (_ & _ & Hcandidate)
    [[Hc Hb] | (candidateKey & latestKey & Hc & Hb & Hcmp)];
    unfold consider; rewrite Hc, Hb.
  - reflexivity.
  - destruct (Hbest latestKey Hb) as [HlatestKey _].
    destruct (Hcandidate candidateKey Hc) as [HcandidateKey _].
    rewrite (truthy_of_nonEmpty candidateKey HcandidateKey).
    rewrite (truthy_of_nonEmpty latestKey HlatestKey).
    now rewrite Hcmp.
Qed.

Lemma consider_versioned (best candidate : SparkleReleaseCandidate) :
  wellBuilt candidate -> versionKey candidate <> None -> versionKey best = None ->
  consider (Some best) candidate = Some candidate.
Proof.
  intros (_ & _ & Hcandidate) Hc Hb. unfold consider. rewrite Hb.
  destruct (versionKey candidate) as [key|]; [|contradiction].
  destruct (Hcandidate key eq_refl) as [Hkey _].
  rewrite (truthy_of_nonEmpty key Hkey). reflexivity.
Qed.

Lemma consider_unversioned (best candidate : SparkleReleaseCandidate) :
  wellBuilt best -> versionKey candidate = None -> versionKey best <> None ->
  consider (Some best) candidate = Some best.
Proof.
  intros (_ & _ & Hbest) Hc Hb. unfold consider. rewrite Hc.
  destruct (versionKey best) as [key|]; [|contradiction].
  destruct (Hbest key eq_refl) as [Hkey _].
  rewrite (truthy_of_nonEmpty key Hkey). reflexivity.
Qed.

(** ** The claims about the selector *)

Section SelectorClaims.

Variable Date_parse : string -> number.

(** C6.  Between two candidates built from items and tied on their
    version keys, the candidate replaces the running best exactly when its
    publish date is strictly later: it does when both dates are known and
    its own is later, it does not when both are known and its own is not
    later, it never does when its own date is unknown, and it does when
    only its own date is known.  Two items with the version identifier
    ["2.0.0"] dated 2024 and 2025 give the 2025 one, in either order. *)
Theorem ties_broken_by_publish_date :
  (forall (itemB itemC : Node) (best candidate : SparkleReleaseCandidate),
     candidateOf Date_parse itemB = Some best ->
     candidateOf Date_parse itemC = Some candidate ->
     tied best candidate ->
     (forall dc dl, pubDate candidate = Some dc -> pubDate best = Some dl ->
        JsNumber.gt dc dl = true ->
        consider (Some best) candidate = Some candidate) /\
     (forall dc dl, pubDate candidate = Some dc -> pubDate best = Some dl ->
        JsNumber.gt dc dl = false ->
        consider (Some best) candidate = Some best) /\
     (pubDate candidate = None -> consider (Some best) candidate = Some best) /\
     (forall tc, pubDate candidate = Some (Finite tc) -> pubDate best = None ->
        consider (Some best) candidate = Some candidate)) /\
  (forall (url2024 url2025 : string) (t2024 t2025 : Z),
     JsString.trim url2024 <> "" -> JsString.trim url2025 <> "" ->
     Date_parse "Mon, 01 Jan 2024 00:00:00 GMT" = Finite t2024 ->
     Date_parse "Wed, 01 Jan 2025 00:00:00 GMT" = Finite t2025 ->
     t2024 < t2025 ->
     findLatestSparkleRelease Date_parse
       (appcast [versionedItem url2024 "2.0.0" (Some "Mon, 01 Jan 2024 00:00:00 GMT");
                 versionedItem url2025 "2.0.0" (Some "Wed, 01 Jan 2025 00:00:00 GMT")]) =
     Some {| version := "2.0.0"; downloadUrl := JsString.trim url2025 |} /\
     findLatestSparkleRelease Date_parse
       (appcast [versionedItem url2025 "2.0.0" (Some "Wed, 01 Jan 2025 00:00:00 GMT");
                 versionedItem url2024 "2.0.0" (Some "Mon, 01 Jan 2024 00:00:00 GMT")]) =
     Some {| version := "2.0.0"; downloadUrl := JsString.trim url2025 |}).
Proof.
  split.
  - intros itemB itemC best candidate HB HC Htied.
    apply candidateOf_wellBuilt in HB, HC.
    rewrite (consider_tied best candidate HB HC Htied).
    unfold laterByDate. repeat split.
    + intros dc dl -> ->. cbn [orNegInfinity]. now intros ->.
    + intros dc dl -> ->. cbn [orNegInfinity]. now intros ->.
    + intros ->. cbn [orNegInfinity].
      now destruct (orNegInfinity (pubDate best)).
    + intros tc -> ->. reflexivity.
  - intros url2024 url2025 t2024 t2025 H1 H2 D1 D2 Hlt.
    assert ((t2024 <? t2025) = true) as Hltb by now apply Z.ltb_lt.
    assert ((t2025 <? t2024) = false) as Hgeb by (apply Z.ltb_ge; lia).
    unfold findLatestSparkleRelease. rewrite !channelItems_appcast.
    cbn [flat_map]. rewrite !channelItems_versionedItem. cbn [app].
    unfold latestAfter. cbn [fold_left]. unfold visit.
    rewrite !candidateOf_versionedItem by (assumption || (vm_compute; discriminate)).
    unfold versionedItem. rewrite !pubDateOf_dated.
    change (JsString.trim "Mon, 01 Jan 2024 00:00:00 GMT")
      with "Mon, 01 Jan 2024 00:00:00 GMT".
    change (JsString.trim "Wed, 01 Jan 2025 00:00:00 GMT")
      with "Wed, 01 Jan 2025 00:00:00 GMT".
    rewrite D1, D2.
    change (JsString.trim "2.0.0") with "2.0.0".
    cbn [consider JsString.nonEmpty JsNumber.isNaN truthy versionKey].
    change (compareVersionStrings "2.0.0" "2.0.0") with 0.
    cbn [Z.gtb Z.ltb Z.compare]. unfold laterByDate.
    cbn [pubDate orNegInfinity JsNumber.gt]. rewrite Hltb, Hgeb.
    split; reflexivity.
Qed.

(** C7.  A candidate with a version key replaces a best without one, and
    a candidate without one never replaces a best that has one, whatever
    the publish dates; so of a versioned item and an item with a URL only
    the selector returns the versioned one, in either order. *)
Theorem versioned_beats_unversioned :
  (forall (itemB itemC : Node) (best candidate : SparkleReleaseCandidate),
     candidateOf Date_parse itemB = Some best ->
     candidateOf Date_parse itemC = Some candidate ->
     (versionKey candidate <> None -> versionKey best = None ->
      consider (Some best) candidate = Some candidate) /\
     (versionKey candidate = None -> versionKey best <> None ->
      consider (Some best) candidate = Some best)) /\
  (forall (url identifier otherUrl : string) (date otherDate : option string),
     JsString.trim url <> "" -> JsString.trim identifier <> "" ->
     JsString.trim otherUrl <> "" ->
     findLatestSparkleRelease Date_parse
       (appcast [versionedItem url identifier date; bareItem otherUrl otherDate]) =
     Some {| version := JsString.trim identifier; downloadUrl := JsString.trim url |} /\
     findLatestSparkleRelease Date_parse
       (appcast [bareItem otherUrl otherDate; versionedItem url identifier date]) =
     Some {| version := JsString.trim identifier; downloadUrl := JsString.trim url |}).
Proof.
  split.
  - intros itemB itemC best candidate HB HC.
    apply candidateOf_wellBuilt in HB, HC.
    split; intros; [now apply consider_versioned | now apply consider_unversioned].
  - intros url identifier otherUrl date otherDate Hurl Hid Hother.
    pose proof (candidateOf_versionedItem Date_parse url identifier date Hurl Hid) as HV.
    pose proof (candidateOf_bareItem Date_parse otherUrl otherDate Hother) as HB.
    pose proof (candidateOf_wellBuilt Date_parse _ _ HV) as WV.
    pose proof (candidateOf_wellBuilt Date_parse _ _ HB) as WB.
    unfold findLatestSparkleRelease. rewrite !channelItems_appcast.
    cbn [flat_map]. rewrite !channelItems_versionedItem, !channelItems_bareItem.
    cbn [app]. unfold latestAfter. cbn [fold_left]. unfold visit.
    rewrite HV, HB, !consider_first.
    rewrite consider_unversioned, consider_versioned;
      try assumption; try reflexivity; try discriminate.
    split; reflexivity.
Qed.

End SelectorClaims.

Section SelectorTotality.

Variable Date_parse : string -> number.

Lemma findLatest_None (xml : Document) :
  findLatestSparkleRelease Date_parse xml = None <->
  latestAfter Date_parse (querySelectorAll_channel_item xml) = None.
Proof.
  unfold findLatestSparkleRelease.
  destruct (latestAfter Date_parse (querySelectorAll_channel_item xml));
    split; congruence.
Qed.

(** C8.  When every item matched in the document is unusable, and so when
    there is no item at all, the selector returns null; it returns null
    in no other case; and an unusable item only excludes itself: the loop
    ends with the same [latest] as on the items without it. *)
Theorem no_usable_item_no_release :
  (forall xml : Document,
     (forall item, In item (querySelectorAll_channel_item xml) -> unusable item) ->
     findLatestSparkleRelease Date_parse xml = None) /\
  (forall xml : Document,
     findLatestSparkleRelease Date_parse xml = None ->
     forall item, In item (querySelectorAll_channel_item xml) -> unusable item) /\
  (forall (before after : list Node) (item : Node),
     unusable item ->
     latestAfter Date_parse (before ++ item :: after) =
     latestAfter Date_parse (before ++ after)) /\
  findLatestSparkleRelease Date_parse (appcast []) = None.
Proof.
  split; [|split; [|split]].
  - intros xml Hall. apply findLatest_None, latestAfter_None, Hall.
  - intros xml Hnone. apply findLatest_None in Hnone.
    exact (proj1 (latestAfter_None Date_parse _) Hnone).
  - intros before after item Hu. unfold latestAfter.
    rewrite !fold_left_app. cbn [fold_left].
    now rewrite (visit_unusable Date_parse _ item Hu).
  - reflexivity.
Qed.

(** C9.  A document without a [channel] element, or without an [item]
    element, gives null; so does in particular a document whose root is a
    bare [enclosure], whatever its attributes. *)
Theorem bare_enclosure_gives_no_release :
  (forall xml : Document,
     elementsNamed "channel" xml = [] \/ elementsNamed "item" xml = [] ->
     findLatestSparkleRelease Date_parse xml = None) /\
  (forall attrs : list (string * string),
     findLatestSparkleRelease Date_parse [Element "enclosure" attrs []] = None) /\
  (forall attrs : list (string * string),
     findLatestSparkleRelease Date_parse
       [Element "rss" [] [Element "enclosure" attrs []]] = None).
Proof.
  assert (forall xml : Document,
            elementsNamed "channel" xml = [] \/ elementsNamed "item" xml = [] ->
            findLatestSparkleRelease Date_parse xml = None) as Hgeneral.
  { intros xml Hnone. unfold findLatestSparkleRelease.
    now rewrite (no_wrapping_no_items xml Hnone). }
  split; [assumption|].
  split; intros attrs; apply Hgeneral; left; reflexivity.
Qed.

(** C10.  After any number of items, the running best has a download URL
    that is trimmed and not empty, and a version key that is, when
    present, trimmed and not empty; the loop that also records the
    arguments of the comparator computes the same [latest], and every
    recorded call has two non-empty strings; a result that is not null
    carries a non-empty download URL. *)
Theorem candidates_are_well_built (xml : Document) :
  (forall (n : nat) (best : SparkleReleaseCandidate),
     latestAfter Date_parse (firstn n (querySelectorAll_channel_item xml)) = Some best ->
     wellBuilt best) /\
  fst (fold_left (visitLogged Date_parse) (querySelectorAll_channel_item xml) (None, [])) =
    latestAfter Date_parse (querySelectorAll_channel_item xml) /\
  Forall (fun call => fst call <> "" /\ snd call <> "")
    (comparatorCalls Date_parse xml) /\
  (forall release : VersionInfo,
     findLatestSparkleRelease Date_parse xml = Some release ->
     downloadUrl release <> "" /\
     JsString.trim (downloadUrl release) = downloadUrl release).
Proof.
  split; [|split; [|split]].
  - intros n best Hbest.
    eapply (fold_visit_wellBuilt Date_parse _ None); [discriminate | exact Hbest].
  - apply fold_visitLogged_fst.
  - apply fold_visitLogged_calls. constructor.
  - intros release. unfold findLatestSparkleRelease.
    destruct (latestAfter Date_parse (querySelectorAll_channel_item xml))
      as [latest|] eqn:Hlatest; [|discriminate].
    intros [= <-]. cbn [downloadUrl].
    assert (wellBuilt latest) as (Hurl & Htrim & _)
      by (eapply (fold_visit_wellBuilt Date_parse _ None);
          [discriminate | exact Hlatest]).
    split; assumption.
Qed.

End SelectorTotality.

(** ** The claims at concrete feeds *)

Lemma ties_broken_by_publish_date_witness :
  consider
    (Some {| versionKey := Some "2.0.0"; displayVersion := "2.0";
             candidateUrl := "https://r2.aizen.win/old.dmg";
             pubDate := Some (Finite 1704067200000) |})
    {| versionKey := Some "2.0"; displayVersion := "2.0";
       candidateUrl := "https://r2.aizen.win/new.dmg";
       pubDate := Some (Finite 1735689600000) |} =
  Some {| versionKey := Some "2.0"; displayVersion := "2.0";
          candidateUrl := "https://r2.aizen.win/new.dmg";
          pubDate := Some (Finite 1735689600000) |} /\
  findLatestSparkleRelease parseUtcString
    (appcast [versionedItem "https://r2.aizen.win/old.dmg" "2.0.0"
                (Some "Mon, 01 Jan 2024 00:00:00 GMT");
              versionedItem "https://r2.aizen.win/new.dmg" "2.0.0"
                (Some "Wed, 01 Jan 2025 00:00:00 GMT")]) =
  Some {| version := "2.0.0";
          downloadUrl := JsString.trim "https://r2.aizen.win/new.dmg" |}.
Proof.
  split.
  - apply (proj1 (proj1 (ties_broken_by_publish_date parseUtcString)
             (releaseItem [("url", "https://r2.aizen.win/old.dmg");
                           ("sparkle:version", "2.0.0");
                           ("sparkle:shortVersionString", "2.0")]
                (Some "Mon, 01 Jan 2024 00:00:00 GMT"))
             (releaseItem [("url", "https://r2.aizen.win/new.dmg");
                           ("sparkle:shortVersionString", "2.0")]
                (Some "Wed, 01 Jan 2025 00:00:00 GMT"))
             _ _ eq_refl eq_refl
             (or_intror (ex_intro _ "2.0" (ex_intro _ "2.0.0"
                (conj eq_refl (conj eq_refl eq_refl))))))
           (Finite 1735689600000) (Finite 1704067200000));
      reflexivity.
  - apply (proj2 (ties_broken_by_publish_date parseUtcString)
             "https://r2.aizen.win/old.dmg" "https://r2.aizen.win/new.dmg"
             1704067200000 1735689600000).
    + vm_compute; discriminate.
    + vm_compute; discriminate.
    + vm_compute; reflexivity.
    + vm_compute; reflexivity.
    + lia.
Defined.

Lemma versioned_beats_unversioned_witness :
  findLatestSparkleRelease parseUtcString
    (appcast [versionedItem "https://r2.aizen.win/Aizen.dmg" " 1.4.2 "
                (Some "Mon, 01 Jan 2024 00:00:00 GMT");
              bareItem "https://r2.aizen.win/nightly.dmg"
                (Some "Wed, 01 Jan 2025 00:00:00 GMT")]) =
  Some {| version := JsString.trim " 1.4.2 ";
          downloadUrl := JsString.trim "https://r2.aizen.win/Aizen.dmg" |} /\
  findLatestSparkleRelease parseUtcString
    (appcast [bareItem "https://r2.aizen.win/nightly.dmg"
                (Some "Wed, 01 Jan 2025 00:00:00 GMT");
              versionedItem "https://r2.aizen.win/Aizen.dmg" " 1.4.2 "
                (Some "Mon, 01 Jan 2024 00:00:00 GMT")]) =
  Some {| version := JsString.trim " 1.4.2 ";
          downloadUrl := JsString.trim "https://r2.aizen.win/Aizen.dmg" |}.
Proof.
  apply (proj2 (versioned_beats_unversioned parseUtcString));
    vm_compute; discriminate.
Defined.

Lemma no_usable_item_no_release_witness :
  findLatestSparkleRelease parseUtcString
    (appcast [Element "item" [] [Element "title" [] [Text "1.0"]];
              releaseItem [("sparkle:version", "1.0")] None;
              releaseItem [("url", "   "); ("sparkle:version", "1.1")] None]) = None.
Proof.
  apply (proj1 (no_usable_item_no_release parseUtcString)).
  simpl. intros item [<- | [<- | [<- | []]]].
  - left. reflexivity.
  - right. eexists. split; [reflexivity|]. left. reflexivity.
  - right. eexists. split; [reflexivity|]. right. eexists. split; reflexivity.
Defined.

Lemma bare_enclosure_gives_no_release_witness :
  findLatestSparkleRelease parseUtcString
    [Element "enclosure"
       [("url", "https://r2.aizen.win/Aizen.dmg"); ("sparkle:version", "1.0.0")]
       []] = None.
Proof.
  apply (proj1 (bare_enclosure_gives_no_release parseUtcString)).
  left. reflexivity.
Defined.

Lemma candidates_are_well_built_witness :
  wellBuilt {| versionKey := Some "1.10.0"; displayVersion := "1.10";
               candidateUrl := "https://r2.aizen.win/b.dmg";
               pubDate := None |}.
Proof.
  apply (proj1 (candidates_are_well_built parseUtcString
           (appcast [versionedItem "https://r2.aizen.win/a.dmg" "1.2.0" None;
                     releaseItem [("url", " https://r2.aizen.win/b.dmg");
                                  ("sparkle:version", "1.10.0 ");
                                  ("sparkle:shortVersionString", "1.10")] None;
                     versionedItem "https://r2.aizen.win/c.dmg" "1.11.0" None]))
         2%nat).
  reflexivity.
Defined.

(** ** Sample runs *)

Example tokenizeVersion_demo :
  tokenizeVersion " 1. 02 -Beta..RC1-" =
  [SegNumber (Finite 1); SegNumber (Finite 2); SegString "beta"; SegString "rc1"].
Proof. reflexivity. Qed.

Example parseInt10_rounds_to_double :
  JsNumber.parseInt10 "9007199254740993" = Finite 9007199254740992 /\
  JsNumber.parseInt10 "9007199254740995" = Finite 9007199254740996 /\
  JsNumber.parseInt10 "18014398509481987" = Finite 18014398509481988.
Proof. repeat split; vm_compute; reflexivity. Qed.

Example comparatorCalls_demo :
  comparatorCalls parseUtcString
    (appcast [versionedItem "https://r2.aizen.win/a.dmg" "1.2.0" None;
              bareItem "https://r2.aizen.win/n.dmg" None;
              versionedItem "https://r2.aizen.win/b.dmg" "1.10.0" None;
              versionedItem "https://r2.aizen.win/c.dmg" "1.9.5" None]) =
  [("1.10.0", "1.2.0"); ("1.9.5", "1.10.0")].
Proof. reflexivity. Qed.

Example parseUtcString_demo :
  parseUtcString "Mon, 01 Jan 2024 00:00:00 GMT" = Finite 1704067200000 /\
  parseUtcString "Wed, 01 Jan 2025 00:00:00 GMT" = Finite 1735689600000 /\
  parseUtcString "Thu, 29 Feb 2024 12:34:56 GMT" = Finite 1709210096000 /\
  parseUtcString "yesterday" = NaN.
Proof. repeat split; vm_compute; reflexivity. Qed.

(** * Further properties of the comparator *)

Lemma compareTokens_zero_iff (tokensA tokensB : list VersionSegment) :
  Forall wellFormed tokensA ->
  (compareTokens tokensA tokensB = 0 <->
   forall k, segmentAt tokensA k = segmentAt tokensB k).
Proof.
  intros HA. split.
  - intros Hzero k.
    destruct (compareTokens_cases tokensA tokensB)
      as [[_ Hall] | (j & result & _ & Hat & Hres)].
    + apply compareSegments_None, Hall.
    + unfold turn in Hat.
      destruct (compareSegments_sign _ _ _ Hat); lia.
  - intros Hsame. apply compareTokens_all_equal. intros k.
    unfold turn. rewrite <- Hsame.
    apply compareSegments_refl, segmentAt_wellFormed, HA.
Qed.

(** The comparison only reads the two lists through [segmentAt]. *)
Lemma compareTokens_ext (tokensA tokensA' tokensB tokensB' : list VersionSegment) :
  (forall k, segmentAt tokensA k = segmentAt tokensA' k) ->
  (forall k, segmentAt tokensB k = segmentAt tokensB' k) ->
  compareTokens tokensA tokensB = compareTokens tokensA' tokensB'.
Proof.
  intros HA HB.
  assert (forall k, turn tokensA' tokensB' k = turn tokensA tokensB k) as Hturn
    by (intros k; unfold turn; now rewrite HA, HB).
  destruct (compareTokens_cases tokensA tokensB)
    as [[Hzero Hall] | (j & result & Hbefore & Hat & Hres)].
  - rewrite Hzero. symmetry. apply compareTokens_all_equal.
    intros k. now rewrite Hturn.
  - rewrite Hres. symmetry. apply (compareTokens_first _ _ j).
    + intros k Hk. rewrite Hturn. now apply Hbefore.
    + now rewrite Hturn.
Qed.

Lemma compareTokens_congruence (tokensA tokensA' tokensB : list VersionSegment) :
  Forall wellFormed tokensA ->
  compareTokens tokensA tokensA' = 0 ->
  compareTokens tokensA tokensB = compareTokens tokensA' tokensB /\
  compareTokens tokensB tokensA = compareTokens tokensB tokensA'.
Proof.
  intros HA Hzero.
  pose proof (proj1 (compareTokens_zero_iff tokensA tokensA' HA) Hzero) as Hsame.
  split; now apply compareTokens_ext.
Qed.

Lemma compareTokens_ge_trans (tokensA tokensB tokensC : list VersionSegment) :
  Forall wellFormed tokensA -> Forall wellFormed tokensB -> Forall wellFormed tokensC ->
  compareTokens tokensA tokensB >= 0 ->
  compareTokens tokensB tokensC >= 0 ->
  compareTokens tokensA tokensC >= 0.
Proof.
  intros HA HB HC HAB HBC.
  destruct (Z.eq_dec (compareTokens tokensA tokensB) 0) as [Hzero | Hne].
  - destruct (compareTokens_congruence tokensA tokensB tokensC HA Hzero) as [-> _].
    assumption.
  - destruct (Z.eq_dec (compareTokens tokensB tokensC) 0) as [Hzero | Hne'].
    + destruct (compareTokens_congruence tokensB tokensC tokensA HB Hzero) as [_ <-].
      assumption.
    + assert (compareTokens tokensA tokensC > 0); [|lia].
      apply (compareTokens_trans tokensA tokensB tokensC); [assumption | lia | lia].
Qed.

(** X1.  The comparator answers [-1], [0] or [1], nothing else. *)
Theorem compareVersionStrings_range (a b : string) :
  compareVersionStrings a b = -1 \/
  compareVersionStrings a b = 0 \/
  compareVersionStrings a b = 1.
Proof.
  unfold compareVersionStrings.
  destruct (compareTokens_sign (tokenizeVersion a) (tokenizeVersion b))
    as [H | [H | H]]; auto.
Qed.

(** X2.  Two version strings compare equal exactly when their token lists
    agree at every position, a position past the end of a list being read
    as the number zero: trailing zero segments, and nothing else, are
    ignored. *)
Theorem compareVersionStrings_zero_iff (a b : string) :
  compareVersionStrings a b = 0 <->
  forall k, segmentAt (tokenizeVersion a) k = segmentAt (tokenizeVersion b) k.
Proof. apply compareTokens_zero_iff, tokenizeVersion_wellFormed. Qed.

(** X3.  Version strings that compare equal are interchangeable: against
    any third string they give the same result, on either side. *)
Theorem compareVersionStrings_congruence (a a' b : string) :
  compareVersionStrings a a' = 0 ->
  compareVersionStrings a b = compareVersionStrings a' b /\
  compareVersionStrings b a = compareVersionStrings b a'.
Proof. apply compareTokens_congruence, tokenizeVersion_wellFormed. Qed.

Lemma compareVersionStrings_congruence_witness :
  compareVersionStrings "1.0" "2-rc" = compareVersionStrings "1.0.0.0" "2-rc" /\
  compareVersionStrings "2-rc" "1.0" = compareVersionStrings "2-rc" "1.0.0.0".
Proof.
  apply (compareVersionStrings_congruence "1.0" "1.0.0.0" "2-rc"). reflexivity.
Defined.

(** X4.  "Not smaller" is transitive, and composes with "greater" on
    either side: with X3 and the claims on the comparator this makes the
    comparison a total preorder. *)
Theorem compareVersionStrings_ge_trans (a b c : string) :
  (compareVersionStrings a b >= 0 -> compareVersionStrings b c >= 0 ->
   compareVersionStrings a c >= 0) /\
  (compareVersionStrings a b > 0 -> compareVersionStrings b c >= 0 ->
   compareVersionStrings a c > 0) /\
  (compareVersionStrings a b >= 0 -> compareVersionStrings b c > 0 ->
   compareVersionStrings a c > 0).
Proof.
  pose proof (tokenizeVersion_wellFormed a) as HA.
  pose proof (tokenizeVersion_wellFormed b) as HB.
  pose proof (tokenizeVersion_wellFormed c) as HC.
  unfold compareVersionStrings. split; [|split].
  - now apply compareTokens_ge_trans.
  - intros HAB HBC.
    destruct (Z.eq_dec (compareTokens (tokenizeVersion b) (tokenizeVersion c)) 0)
      as [Hzero | Hne].
    + destruct (compareTokens_congruence _ _ (tokenizeVersion a) HB Hzero) as [_ <-].
      assumption.
    + apply (compareTokens_trans _ (tokenizeVersion b)); [assumption | assumption | lia].
  - intros HAB HBC.
    destruct (Z.eq_dec (compareTokens (tokenizeVersion a) (tokenizeVersion b)) 0)
      as [Hzero | Hne].
    + destruct (compareTokens_congruence _ _ (tokenizeVersion c) HA Hzero) as [-> _].
      assumption.
    + apply (compareTokens_trans _ (tokenizeVersion b)); [assumption | lia | assumption].
Qed.

Lemma compareVersionStrings_ge_trans_witness :
  compareVersionStrings "1.10" "1.9.beta" >= 0 /\
  compareVersionStrings "1.10" "1.9-BETA" > 0 /\
  compareVersionStrings "1.10.0" "1.9.beta" > 0.
Proof.
  split; [|split].
  - apply (proj1 (compareVersionStrings_ge_trans "1.10" "1.10.0" "1.9.beta"));
      vm_compute; discriminate.
  - apply (proj1 (proj2 (compareVersionStrings_ge_trans "1.10" "1.9.beta" "1.9-BETA")));
      [reflexivity | vm_compute; discriminate].
  - apply (proj2 (proj2 (compareVersionStrings_ge_trans "1.10.0" "1.10" "1.9.beta")));
      [vm_compute; discriminate | reflexivity].
Defined.

(** ** Tokenizing *)

Lemma lowerChar_whiteSpace (c : ascii) :
  JsString.isWhiteSpace (JsString.lowerChar c) = JsString.isWhiteSpace c.
Proof. each_ascii c; reflexivity. Qed.

Lemma lowerChar_digit (c : ascii) :
  JsString.isDigit (JsString.lowerChar c) = JsString.isDigit c.
Proof. each_ascii c; reflexivity. Qed.

Lemma lowerChar_idempotent (c : ascii) :
  JsString.lowerChar (JsString.lowerChar c) = JsString.lowerChar c.
Proof. each_ascii c; reflexivity. Qed.

Lemma toLowerCase_idempotent (s : string) :
  JsString.toLowerCase (JsString.toLowerCase s) = JsString.toLowerCase s.
Proof.
  induction s as [|c s IH]; simpl; [reflexivity|].
  now rewrite lowerChar_idempotent, IH.
Qed.

Lemma trimStart_toLowerCase (s : string) :
  JsString.trimStart (JsString.toLowerCase s) = JsString.toLowerCase (JsString.trimStart s).
Proof.
  induction s as [|c s IH]; simpl; [reflexivity|].
  rewrite lowerChar_whiteSpace.
  now destruct (JsString.isWhiteSpace c).
Qed.

Lemma trimEnd_toLowerCase (s : string) :
  JsString.trimEnd (JsString.toLowerCase s) = JsString.toLowerCase (JsString.trimEnd s).
Proof.
  induction s as [|c s IH]; [reflexivity|].
  cbn [JsString.toLowerCase JsString.trimEnd].
  rewrite IH, lowerChar_whiteSpace.
  destruct (JsString.trimEnd s); cbn [JsString.toLowerCase]; [|reflexivity].
  now destruct (JsString.isWhiteSpace c).
Qed.

Lemma trim_toLowerCase (s : string) :
  JsString.trim (JsString.toLowerCase s) = JsString.toLowerCase (JsString.trim s).
Proof. unfold JsString.trim. now rewrite trimStart_toLowerCase, trimEnd_toLowerCase. Qed.

Lemma allDigits_toLowerCase (s : string) :
  JsString.allDigits (JsString.toLowerCase s) = JsString.allDigits s.
Proof.
  induction s as [|c s IH]; simpl; [reflexivity|]. now rewrite lowerChar_digit, IH.
Qed.

Lemma isDigitString_toLowerCase (s : string) :
  JsString.isDigitString (JsString.toLowerCase s) = JsString.isDigitString s.
Proof.
  destruct s as [|c rest]; [reflexivity|].
  simpl. now rewrite lowerChar_digit, allDigits_toLowerCase.
Qed.

Lemma isDigitString_allDigits (s : string) :
  JsString.isDigitString s = true -> JsString.allDigits s = true.
Proof. destruct s; [discriminate | trivial]. Qed.

Lemma split_append_separator (a b : string) (c : ascii) :
  JsString.isSeparator c = true ->
  JsString.split (a ++ String c b) = (JsString.split a ++ JsString.split b)%list.
Proof.
  intros Hc. induction a as [|x a IH]; simpl.
  - now rewrite Hc.
  - rewrite IH. destruct (JsString.isSeparator x); [reflexivity|].
    pose proof (split_not_nil a) as Hne.
    destruct (JsString.split a); [contradiction | reflexivity].
Qed.

(** X7.  A separator splits the tokenizing: the tokens of [a], a dot or a
    hyphen, and [b] are the tokens of [a] followed by the tokens of [b].
    Dots and hyphens are therefore interchangeable, and doubled, leading
    or trailing separators add no token. *)
Theorem tokenizeVersion_at_separator (a b : string) :
  tokenizeVersion (a ++ "." ++ b) = (tokenizeVersion a ++ tokenizeVersion b)%list /\
  tokenizeVersion (a ++ "-" ++ b) = (tokenizeVersion a ++ tokenizeVersion b)%list /\
  compareVersionStrings (a ++ "-" ++ b) (a ++ "." ++ b) = 0.
Proof.
  assert (forall c, JsString.isSeparator c = true ->
            tokenizeVersion (a ++ String c b) =
            (tokenizeVersion a ++ tokenizeVersion b)%list) as Hsep.
  { intros c Hc. unfold tokenizeVersion.
    now rewrite (split_append_separator a b c Hc), map_app, filter_app, map_app. }
  split; [|split].
  - apply (Hsep "."%char). reflexivity.
  - apply (Hsep "-"%char). reflexivity.
  - unfold compareVersionStrings.
    change (a ++ "-" ++ b) with (a ++ String "-" b).
    change (a ++ "." ++ b) with (a ++ String "." b).
    rewrite (Hsep "."%char), (Hsep "-"%char) by reflexivity.
    apply compareTokens_refl, Forall_app.
    split; apply tokenizeVersion_wellFormed.
Qed.

(** ** Numeric versions *)

Lemma digit_not_separator (c : ascii) :
  JsString.isDigit c = true -> JsString.isSeparator c = false.
Proof. each_ascii c; vm_compute; congruence. Qed.

Lemma split_of_digits (s : string) :
  JsString.allDigits s = true -> JsString.split s = [s].
Proof.
  induction s as [|c s IH]; simpl; [reflexivity|].
  intros H. apply andb_prop in H as [Hc Hs].
  now rewrite (digit_not_separator c Hc), (IH Hs).
Qed.

Lemma trimEnd_of_digits (s : string) :
  JsString.allDigits s = true -> JsString.trimEnd s = s.
Proof.
  induction s as [|c s IH]; simpl; [reflexivity|].
  intros H. apply andb_prop in H as [Hc Hs].
  rewrite (IH Hs), (digit_not_whitespace c Hc). now destruct s.
Qed.

Lemma trim_of_digits (s : string) :
  JsString.allDigits s = true -> JsString.trim s = s.
Proof.
  intros H. unfold JsString.trim.
  rewrite (trimStart_fixed s); [now apply trimEnd_of_digits|].
  destruct s as [|c s]; simpl in *; [exact I|].
  apply andb_prop in H as [Hc _]. now apply digit_not_whitespace.
Qed.

Lemma tokenizeVersion_of_digits (s : string) :
  JsString.isDigitString s = true ->
  tokenizeVersion s = [SegNumber (JsNumber.parseInt10 s)].
Proof.
  intros Hd. pose proof (isDigitString_allDigits s Hd) as Hall.
  unfold tokenizeVersion. rewrite (split_of_digits s Hall).
  cbn [map]. rewrite (trim_of_digits s Hall).
  assert (JsString.nonEmpty s = true) as Hne by (destruct s; [discriminate | reflexivity]).
  cbn [filter]. rewrite Hne. cbn [map]. unfold toSegment. now rewrite Hd.
Qed.

Lemma readDigits_nonneg (s : string) (acc : Z) (seen : bool) :
  0 <= acc -> 0 <= fst (JsNumber.readDigits acc seen s).
Proof.
  revert acc seen.
  induction s as [|c s IH]; intros acc seen Hacc; cbn [JsNumber.readDigits];
    [assumption|].
  destruct (JsString.isDigit c) eqn:Hc; [|assumption].
  apply IH. unfold JsString.isDigit in Hc.
  apply andb_prop in Hc as [Hlow _]. apply N.leb_le in Hlow.
  unfold JsNumber.digitValue. lia.
Qed.

(** [parseInt] of a string that begins with a digit reads the digits with
    no sign. *)
Lemma parseInt10_unsigned (c : ascii) (rest : string) :
  JsString.isDigit c = true ->
  JsNumber.parseInt10 (String c rest) =
  JsNumber.ofInteger
    (1 * fst (JsNumber.readDigits (10 * 0 + JsNumber.digitValue c) true rest)).
Proof.
  intros Hc. unfold JsNumber.parseInt10. cbn [JsString.trimStart].
  rewrite (digit_not_whitespace c Hc).
  pose proof (readDigits_seen rest (10 * 0 + JsNumber.digitValue c)) as Hseen.
  destruct (JsNumber.readDigits (10 * 0 + JsNumber.digitValue c) true rest)
    as [value seen] eqn:Hread.
  cbn [fst snd] in *. subst seen.
  each_ascii c; try discriminate Hc;
    cbn [JsNumber.readDigits JsString.isDigit JsString.code N_of_ascii N_of_digits
         N.add N.mul N.leb N.compare Pos.compare Pos.compare_cont andb];
    (rewrite Hread || (cbn in Hread |- *; rewrite Hread)); reflexivity.
Qed.

Lemma parseInt10_decimal (s : string) (value : Z) :
  decimal s = Some value ->
  JsString.isDigitString s = true /\ 0 <= value /\
  JsNumber.parseInt10 s = JsNumber.ofInteger value.
Proof.
  unfold decimal. destruct (JsString.isDigitString s) eqn:Hd; [|discriminate].
  intros [= <-]. split; [reflexivity|].
  split; [apply readDigits_nonneg; lia|].
  destruct s as [|c rest]; [discriminate|].
  assert (JsString.isDigit c = true) as Hc.
  { simpl in Hd. now apply andb_prop in Hd as [Hc _]. }
  rewrite (parseInt10_unsigned c rest Hc).
  cbn [JsNumber.readDigits]. rewrite Hc. f_equal.
  destruct (fst (JsNumber.readDigits (10 * 0 + JsNumber.digitValue c) true rest));
    reflexivity.
Qed.

Lemma ofInteger_exact (value : Z) :
  0 <= value < 2 ^ 53 -> JsNumber.ofInteger value = Finite value.
Proof.
  intros [Hlow Hhigh]. unfold JsNumber.ofInteger, JsNumber.roundNat.
  rewrite (proj2 (Z.ltb_ge value 0) Hlow), (proj2 (Z.ltb_lt value (2 ^ 53)) Hhigh).
  reflexivity.
Qed.

(** X6.  Version strings made of digits only compare as the integers
    they write, as long as these are below [2^53]; a leading zero changes
    nothing; from [2^53] on the values are rounded to doubles before they
    are compared, so that [9007199254740993] and [9007199254740992]
    compare equal. *)
Theorem digit_strings_compare_by_value :
  (forall (d e : string) (m n : Z),
     decimal d = Some m -> decimal e = Some n ->
     m < 2 ^ 53 -> n < 2 ^ 53 ->
     compareVersionStrings d e = Z.sgn (m - n)) /\
  (forall d : string,
     JsString.isDigitString d = true -> compareVersionStrings ("0" ++ d) d = 0) /\
  compareVersionStrings "9007199254740993" "9007199254740992" = 0.
Proof.
  split; [|split].
  - intros d e m n Hd He Hm Hn.
    apply parseInt10_decimal in Hd as (Hd & Hm0 & Pd).
    apply parseInt10_decimal in He as (He & Hn0 & Pe).
    unfold compareVersionStrings.
    rewrite (tokenizeVersion_of_digits d Hd), (tokenizeVersion_of_digits e He).
    rewrite Pd, Pe, !ofInteger_exact by lia.
    rewrite compareTokens_cons. cbn [compareSegments JsNumber.strictEq JsNumber.gt].
    destruct (m =? n) eqn:Heq.
    + apply Z.eqb_eq in Heq. subst. now rewrite Z.sub_diag.
    + apply Z.eqb_neq in Heq.
      destruct (n <? m) eqn:Hlt.
      * apply Z.ltb_lt in Hlt. symmetry. apply Z.sgn_pos. lia.
      * apply Z.ltb_ge in Hlt. symmetry. apply Z.sgn_neg. lia.
  - intros d Hd. unfold compareVersionStrings.
    assert (JsString.isDigitString ("0" ++ d) = true) as Hd0
      by (simpl; now apply isDigitString_allDigits).
    rewrite (tokenizeVersion_of_digits d Hd), (tokenizeVersion_of_digits _ Hd0).
    assert (JsNumber.parseInt10 ("0" ++ d) = JsNumber.parseInt10 d) as ->.
    { destruct d as [|c rest]; [discriminate|].
      assert (JsString.isDigit c = true) as Hc.
      { simpl in Hd. now apply andb_prop in Hd as [Hc _]. }
      change ("0" ++ String c rest) with (String "0" (String c rest)).
      rewrite (parseInt10_unsigned "0" (String c rest) eq_refl).
      rewrite (parseInt10_unsigned c rest Hc).
      cbn [JsNumber.readDigits]. rewrite Hc. reflexivity. }
    apply compareTokens_refl. constructor; [|constructor].
    intros [= H]. now apply (parseInt10_digits d Hd).
  - vm_compute. reflexivity.
Qed.

Lemma digit_strings_compare_by_value_witness :
  compareVersionStrings "0012" "9" = Z.sgn (12 - 9) /\
  compareVersionStrings ("0" ++ "0012") "0012" = 0.
Proof.
  split.
  - apply (proj1 digit_strings_compare_by_value "0012" "9" 12 9);
      vm_compute; reflexivity.
  - apply (proj1 (proj2 digit_strings_compare_by_value) "0012"). reflexivity.
Defined.

(** ** Numeric segments *)

Lemma tokenizeVersion_append_separator (a b : string) (c : ascii) :
  JsString.isSeparator c = true ->
  tokenizeVersion (a ++ String c b) = (tokenizeVersion a ++ tokenizeVersion b)%list.
Proof.
  intros Hc. unfold tokenizeVersion.
  now rewrite (split_append_separator a b c Hc), map_app, filter_app, map_app.
Qed.

Lemma toSegment_decimal (digits : string) (m : Z) :
  decimal digits = Some m -> m < 2 ^ 53 -> toSegment digits = SegNumber (Finite m).
Proof.
  intros Hd Hm. apply parseInt10_decimal in Hd as (Hd & Hm0 & Hparse).
  unfold toSegment. rewrite Hd, Hparse, ofInteger_exact by lia. reflexivity.
Qed.

Lemma tokenizeVersion_decimal (digits : string) (m : Z) :
  decimal digits = Some m -> m < 2 ^ 53 ->
  tokenizeVersion digits = [SegNumber (Finite m)].
Proof.
  intros Hd Hm.
  pose proof (toSegment_decimal digits m Hd Hm) as Hseg.
  apply parseInt10_decimal in Hd as (Hd & _ & _).
  rewrite (tokenizeVersion_of_digits digits Hd).
  unfold toSegment in Hseg. rewrite Hd in Hseg. now rewrite Hseg.
Qed.

Lemma compareSegments_numbers (m n : Z) :
  m <> n ->
  compareSegments (SegNumber (Finite m)) (SegNumber (Finite n)) = Some (Z.sgn (m - n)).
Proof.
  intros Hne. cbn [compareSegments JsNumber.strictEq JsNumber.gt].
  rewrite (proj2 (Z.eqb_neq m n) Hne).
  destruct (n <? m) eqn:Hlt.
  - apply Z.ltb_lt in Hlt. now rewrite Z.sgn_pos by lia.
  - apply Z.ltb_ge in Hlt. now rewrite Z.sgn_neg by lia.
Qed.

Lemma segmentAt_app_l (tokens rest : list VersionSegment) (k : nat) :
  (k < List.length tokens)%nat ->
  segmentAt (tokens ++ rest) k = segmentAt tokens k.
Proof. intros Hk. unfold segmentAt. now rewrite nth_error_app1. Qed.

Lemma segmentAt_app_head (tokens rest : list VersionSegment) (seg : VersionSegment) :
  segmentAt (tokens ++ seg :: rest) (List.length tokens) = seg.
Proof.
  unfold segmentAt. rewrite nth_error_app2 by lia. now rewrite Nat.sub_diag.
Qed.

Section NumericMagnitude.

Variable Date_parse : string -> number.

(** C1, as the code has it.  Numeric segments compare by the integers
    they write, not lexically, as long as these integers are below
    [2^53], the range in which [parseInt] is exact: a digit segment below
    [2^53] becomes the number it writes; at the first discriminating
    position two such numbers [m] and [n] give the sign of [m - n]; so do
    two version strings with a common beginning followed by two different
    digit segments, whatever comes after.  ["10.0"] against ["9.0"] is
    positive, and of three items with the version identifiers ["1.2.0"],
    ["1.10.0"] and ["1.9.5"] the selector returns the one with
    ["1.10.0"], in any document and in particular in a channel of three
    items with non-empty URLs and no publish dates. *)
Theorem numeric_segments_by_magnitude :
  (forall (digits : string) (m : Z),
     decimal digits = Some m -> m < 2 ^ 53 ->
     toSegment digits = SegNumber (Finite m)) /\
  (forall (a b : string) (i : nat) (m n : Z),
     (forall k, (k < i)%nat ->
        turn (tokenizeVersion a) (tokenizeVersion b) k = None) ->
     segmentAt (tokenizeVersion a) i = SegNumber (Finite m) ->
     segmentAt (tokenizeVersion b) i = SegNumber (Finite n) ->
     m <> n ->
     compareVersionStrings a b = Z.sgn (m - n)) /\
  (forall (common d e restA restB : string) (m n : Z),
     decimal d = Some m -> decimal e = Some n ->
     m < 2 ^ 53 -> n < 2 ^ 53 -> m <> n ->
     compareVersionStrings (common ++ "." ++ d ++ "." ++ restA)
                           (common ++ "." ++ e ++ "." ++ restB) = Z.sgn (m - n)) /\
  compareVersionStrings "10.0" "9.0" > 0 /\
  (forall (xml : Document) (item1 item2 item3 : Node)
          (first second third : SparkleReleaseCandidate),
     querySelectorAll_channel_item xml = [item1; item2; item3] ->
     candidateOf Date_parse item1 = Some first ->
     candidateOf Date_parse item2 = Some second ->
     candidateOf Date_parse item3 = Some third ->
     versionKey first = Some "1.2.0" ->
     versionKey second = Some "1.10.0" ->
     versionKey third = Some "1.9.5" ->
     findLatestSparkleRelease Date_parse xml =
     Some {| version := displayVersion second; downloadUrl := candidateUrl second |}) /\
  (forall url1 url2 url3 : string,
     JsString.trim url1 <> "" -> JsString.trim url2 <> "" -> JsString.trim url3 <> "" ->
     findLatestSparkleRelease Date_parse
       (appcast [versionedItem url1 "1.2.0" None;
                 versionedItem url2 "1.10.0" None;
                 versionedItem url3 "1.9.5" None]) =
     Some {| version := "1.10.0"; downloadUrl := JsString.trim url2 |}).
Proof.
  assert (forall (tokensA tokensB : list VersionSegment) (i : nat) (m n : Z),
            (forall k, (k < i)%nat -> turn tokensA tokensB k = None) ->
            segmentAt tokensA i = SegNumber (Finite m) ->
            segmentAt tokensB i = SegNumber (Finite n) ->
            m <> n ->
            compareTokens tokensA tokensB = Z.sgn (m - n)) as Hposition.
  { intros tokensA tokensB i m n Hbefore HA HB Hne.
    apply (compareTokens_first _ _ i); [assumption|].
    unfold turn. rewrite HA, HB. now apply compareSegments_numbers. }
  split; [exact toSegment_decimal|].
  split; [intros a b; apply Hposition|].
  split; [|split; [reflexivity|split]].
  - intros common d e restA restB m n Hd He Hm Hn Hne.
    unfold compareVersionStrings.
    change (common ++ "." ++ d ++ "." ++ restA)
      with (common ++ String "." (d ++ String "." restA)).
    change (common ++ "." ++ e ++ "." ++ restB)
      with (common ++ String "." (e ++ String "." restB)).
    rewrite !tokenizeVersion_append_separator by reflexivity.
    rewrite (tokenizeVersion_decimal d m Hd Hm), (tokenizeVersion_decimal e n He Hn).
    cbn [app].
    apply (Hposition _ _ (List.length (tokenizeVersion common))).
    + intros k Hk. unfold turn. rewrite !segmentAt_app_l by assumption.
      apply compareSegments_refl, segmentAt_wellFormed, tokenizeVersion_wellFormed.
    + apply segmentAt_app_head.
    + apply segmentAt_app_head.
    + assumption.
  - intros xml item1 item2 item3 first second third Hitems H1 H2 H3 K1 K2 K3.
    unfold findLatestSparkleRelease. rewrite Hitems.
    unfold latestAfter. cbn [fold_left]. unfold visit.
    rewrite H1, H2, H3. unfold consider at 3.
    unfold consider at 2. rewrite K1, K2. cbn [truthy JsString.nonEmpty].
    change (compareVersionStrings "1.10.0" "1.2.0") with 1.
    cbn [Z.gtb Z.compare].
    unfold consider. rewrite K2, K3. cbn [truthy JsString.nonEmpty].
    change (compareVersionStrings "1.9.5" "1.10.0") with (-1).
    reflexivity.
  - intros url1 url2 url3 H1 H2 H3.
    unfold findLatestSparkleRelease. rewrite channelItems_appcast.
    cbn [flat_map]. rewrite !channelItems_versionedItem. cbn [app].
    unfold latestAfter. cbn [fold_left]. unfold visit.
    rewrite !candidateOf_versionedItem by (assumption || (vm_compute; discriminate)).
    reflexivity.
Qed.

End NumericMagnitude.

(** C1, as stated for every numeric segment, fails: [9007199254740993]
    is the greater integer, yet it does not compare greater than
    [9007199254740992], since [parseInt] gives the same double for
    both. *)
Lemma numeric_magnitude_fails_beyond_doubles :
  decimal "9007199254740993" = Some 9007199254740993 /\
  decimal "9007199254740992" = Some 9007199254740992 /\
  9007199254740993 > 9007199254740992 /\
  ~ (compareVersionStrings "9007199254740993" "9007199254740992" > 0).
Proof.
  split; [vm_compute; reflexivity|].
  split; [vm_compute; reflexivity|].
  split; [reflexivity|].
  vm_compute. discriminate.
Qed.

Lemma numeric_segments_by_magnitude_witness :
  compareVersionStrings ("2" ++ "." ++ "10" ++ "." ++ "0-rc")
                        ("2" ++ "." ++ "9" ++ "." ++ "17") = Z.sgn (10 - 9) /\
  findLatestSparkleRelease parseUtcString
    (appcast [versionedItem "https://r2.aizen.win/Aizen-1.2.0.dmg" "1.2.0" None;
              versionedItem " https://r2.aizen.win/Aizen-1.10.0.dmg " "1.10.0" None;
              versionedItem "https://r2.aizen.win/Aizen-1.9.5.dmg" "1.9.5" None]) =
  Some {| version := "1.10.0";
          downloadUrl := JsString.trim " https://r2.aizen.win/Aizen-1.10.0.dmg " |}.
Proof.
  split.
  - apply (proj1 (proj2 (proj2 (numeric_segments_by_magnitude parseUtcString)))
             "2" "10" "9" "0-rc" "17" 10 9);
      try (vm_compute; reflexivity); lia.
  - apply (proj2 (proj2 (proj2 (proj2 (proj2
             (numeric_segments_by_magnitude parseUtcString))))));
      vm_compute; discriminate.
Defined.

(** * Further properties of the selector *)

(** ** The order on version keys *)

Lemma keyOrder_sign (a b : option string) :
  keyOrder a b = -1 \/ keyOrder a b = 0 \/ keyOrder a b = 1.
Proof.
  unfold keyOrder, compareVersionStrings.
  destruct (truthy a) as [x|], (truthy b) as [y|]; auto.
  destruct (compareTokens_sign (tokenizeVersion x) (tokenizeVersion y))
    as [H | [H | H]]; auto.
Qed.

Lemma keyOrder_refl (a : option string) : keyOrder a a = 0.
Proof.
  unfold keyOrder, compareVersionStrings. destruct (truthy a); [|reflexivity].
  apply compareTokens_refl, tokenizeVersion_wellFormed.
Qed.

Lemma keyOrder_antisym (a b : option string) : keyOrder a b = - keyOrder b a.
Proof.
  unfold keyOrder, compareVersionStrings.
  destruct (truthy a) as [x|], (truthy b) as [y|]; try reflexivity.
  apply compareTokens_antisym; apply tokenizeVersion_wellFormed.
Qed.

Lemma keyOrder_trans (a b c : option string) :
  keyOrder a b > 0 -> keyOrder b c > 0 -> keyOrder a c > 0.
Proof.
  unfold keyOrder, compareVersionStrings.
  destruct (truthy a) as [x|], (truthy b) as [y|], (truthy c) as [z|]; try lia.
  apply compareTokens_trans, tokenizeVersion_wellFormed.
Qed.

Lemma keyOrder_congruence (a b c : option string) :
  keyOrder a b = 0 -> keyOrder a c = keyOrder b c /\ keyOrder c a = keyOrder c b.
Proof.
  unfold keyOrder, compareVersionStrings.
  destruct (truthy a) as [x|], (truthy b) as [y|], (truthy c) as [z|];
    try discriminate; auto.
  apply compareTokens_congruence, tokenizeVersion_wellFormed.
Qed.

(** ** The order on candidates *)

Lemma outranks_spec (candidate best : SparkleReleaseCandidate) :
  outranks candidate best = true <->
  keyOrder (versionKey candidate) (versionKey best) > 0 \/
  (keyOrder (versionKey candidate) (versionKey best) = 0 /\
   JsNumber.gt (orNegInfinity (pubDate candidate)) (orNegInfinity (pubDate best)) = true).
Proof.
  unfold outranks.
  destruct (keyOrder_sign (versionKey candidate) (versionKey best)) as [H | [H | H]];
    rewrite H; cbn [Z.gtb Z.ltb Z.compare]; split.
  - discriminate.
  - intros [Hpos | [Hzero _]]; lia.
  - intros Hdate. right. auto.
  - intros [Hpos | [_ Hdate]]; [lia | assumption].
  - intros _. left. lia.
  - reflexivity.
Qed.

Lemma consider_outranks (best candidate : SparkleReleaseCandidate) :
  consider (Some best) candidate =
  Some (if outranks candidate best then candidate else best).
Proof.
  unfold consider, outranks, keyOrder, laterByDate.
  destruct (truthy (versionKey candidate)) as [candidateKey|],
    (truthy (versionKey best)) as [latestKey|]; try reflexivity.
  destruct (compareVersionStrings candidateKey latestKey >? 0); [reflexivity|].
  destruct (compareVersionStrings candidateKey latestKey <? 0); reflexivity.
Qed.

Lemma outranks_irrefl (candidate : SparkleReleaseCandidate) :
  outranks candidate candidate = false.
Proof.
  destruct (outranks candidate candidate) eqn:H; [|reflexivity].
  apply outranks_spec in H. rewrite keyOrder_refl, number_gt_irrefl in H.
  destruct H as [H | [_ H]]; [lia | discriminate].
Qed.

Lemma outranks_trans (a b c : SparkleReleaseCandidate) :
  outranks a b = true -> outranks b c = true -> outranks a c = true.
Proof.
  rewrite !outranks_spec.
  intros [Hab | [Hab Dab]] [Hbc | [Hbc Dbc]].
  - left. eapply keyOrder_trans; eassumption.
  - left. destruct (keyOrder_congruence _ _ (versionKey a) Hbc) as [_ Heq].
    rewrite <- Heq. assumption.
  - left. destruct (keyOrder_congruence _ _ (versionKey c) Hab) as [Heq _].
    rewrite Heq. assumption.
  - right. destruct (keyOrder_congruence _ _ (versionKey c) Hab) as [Heq _].
    split; [now rewrite Heq | eapply number_gt_trans; eassumption].
Qed.

Lemma outranks_asym (a b : SparkleReleaseCandidate) :
  outranks a b = true -> outranks b a = false.
Proof.
  intros Hab. destruct (outranks b a) eqn:Hba; [|reflexivity].
  pose proof (outranks_trans a b a Hab Hba) as H.
  now rewrite outranks_irrefl in H.
Qed.

Lemma number_gt_between (x y z : number) :
  z <> NaN -> JsNumber.gt x y = true ->
  JsNumber.gt x z = true \/ JsNumber.gt z y = true.
Proof.
  destruct x, y, z; simpl; try discriminate; try congruence; auto.
  rewrite !Z.ltb_lt. lia.
Qed.

Lemma outranks_between (a b c : SparkleReleaseCandidate) :
  dated c -> outranks a b = true ->
  outranks a c = true \/ outranks c b = true.
Proof.
  intros Hc. rewrite !outranks_spec.
  assert (orNegInfinity (pubDate c) <> NaN) as Hdate.
  { unfold dated in Hc. destruct (pubDate c) as [d|]; simpl; congruence. }
  pose proof (keyOrder_antisym (versionKey a) (versionKey c)) as Hac.
  pose proof (keyOrder_antisym (versionKey a) (versionKey b)) as Hab'.
  pose proof (keyOrder_antisym (versionKey c) (versionKey b)) as Hcb'.
  destruct (keyOrder_sign (versionKey a) (versionKey c)) as [Hlt | [Heq | Hgt]].
  - intros [Hab | [Hab Dab]]; right; left.
    + apply (keyOrder_trans _ (versionKey a)); lia.
    + destruct (keyOrder_congruence _ _ (versionKey c) Hab) as [_ Heq].
      lia.
  - destruct (keyOrder_congruence _ _ (versionKey b) Heq) as [Hsame _].
    intros [Hab | [Hab Dab]].
    + right. left. lia.
    + destruct (number_gt_between _ _ _ Hdate Dab) as [D | D].
      * left. right. auto.
      * right. right. split; [lia | assumption].
  - intros _. left. left. lia.
Qed.

Section SelectorOrder.

Variable Date_parse : string -> number.

Lemma candidateOf_dated (item : Node) (candidate : SparkleReleaseCandidate) :
  candidateOf Date_parse item = Some candidate -> dated candidate.
Proof.
  unfold candidateOf.
  destruct (querySelector "enclosure" item) as [enclosure|]; [|discriminate].
  destruct (option_map JsString.trim (getAttribute "url" enclosure)) as [url|];
    [|discriminate].
  destruct (negb (JsString.nonEmpty url)); [discriminate|].
  intros [= <-]. unfold dated, pubDateOf. cbn [pubDate].
  match goal with
  | |- (if JsNumber.isNaN ?d then _ else _) <> _ => destruct d; simpl; congruence
  end.
Qed.

Lemma latestAfter_snoc (items : list Node) (item : Node) :
  latestAfter Date_parse (items ++ [item]) =
  visit Date_parse (latestAfter Date_parse items) item.
Proof. unfold latestAfter. now rewrite fold_left_app. Qed.

(** The loop ends on the first item that no other item outranks. *)
Lemma latestAfter_first_maximum (items : list Node) (best : SparkleReleaseCandidate) :
  latestAfter Date_parse items = Some best ->
  exists before item after,
    items = (before ++ item :: after)%list /\
    candidateOf Date_parse item = Some best /\
    (forall earlier candidate,
       In earlier before -> candidateOf Date_parse earlier = Some candidate ->
       outranks best candidate = true) /\
    (forall later candidate,
       In later after -> candidateOf Date_parse later = Some candidate ->
       outranks candidate best = false).
Proof.
  revert best. induction items as [|last items IH] using rev_ind; intros best.
  - discriminate.
  - rewrite latestAfter_snoc. unfold visit.
    destruct (candidateOf Date_parse last) as [candidate|] eqn:Hlast.
    + destruct (latestAfter Date_parse items) as [previous|] eqn:Hprev.
      * destruct (IH previous eq_refl)
          as (before & item & after & -> & Hitem & Hbefore & Hafter).
        rewrite consider_outranks.
        destruct (outranks candidate previous) eqn:Hout; intros [= <-].
        -- exists (before ++ item :: after)%list, last, [].
           repeat split; [assumption | | intros later c []].
           intros earlier c Hin Hc.
           apply in_app_or in Hin as [Hin | [<- | Hin]].
           ++ eapply outranks_trans; [exact Hout | eauto].
           ++ congruence.
           ++ destruct (outranks_between candidate previous c
                          (candidateOf_dated _ _ Hc) Hout) as [H | H];
                [assumption|].
              rewrite (Hafter earlier c Hin Hc) in H. discriminate.
        -- exists before, item, (after ++ [last])%list.
           rewrite <- app_assoc. repeat split; try assumption.
           intros later c Hin Hc.
           apply in_app_or in Hin as [Hin | [<- | []]]; [eauto | congruence].
      * cbn [consider]. intros [= <-].
        exists items, last, []. repeat split; [assumption | | intros later c []].
        intros earlier c Hin Hc.
        pose proof (proj1 (latestAfter_None Date_parse items) Hprev earlier Hin) as Hu.
        pose proof (proj2 (candidateOf_unusable Date_parse earlier) Hu). congruence.
    + intros Hbest.
      destruct (IH best Hbest) as (before & item & after & -> & Hitem & Hbefore & Hafter).
      exists before, item, (after ++ [last])%list.
      rewrite <- app_assoc. repeat split; try assumption.
      intros later c Hin Hc.
      apply in_app_or in Hin as [Hin | [<- | []]]; [eauto | congruence].
Qed.

(** No candidate of the items outranks the one the loop ends on. *)
Lemma latestAfter_maximal (items : list Node) (best : SparkleReleaseCandidate) :
  latestAfter Date_parse items = Some best ->
  forall item candidate,
    In item items -> candidateOf Date_parse item = Some candidate ->
    outranks candidate best = false.
Proof.
  intros Hbest item candidate Hin Hc.
  destruct (latestAfter_first_maximum items best Hbest)
    as (before & chosen & after & -> & Hchosen & Hbefore & Hafter).
  apply in_app_or in Hin as [Hin | [<- | Hin]].
  - apply outranks_asym. eauto.
  - assert (candidate = best) as -> by congruence. apply outranks_irrefl.
  - eauto.
Qed.

End SelectorOrder.

Lemma number_gt_neither (x y : number) :
  x <> NaN -> y <> NaN ->
  JsNumber.gt x y = false -> JsNumber.gt y x = false -> x = y.
Proof.
  destruct x, y; simpl; try congruence.
  rewrite !Z.ltb_ge. intros _ _ H1 H2. f_equal. lia.
Qed.

Lemma orNegInfinity_dated (candidate : SparkleReleaseCandidate) :
  dated candidate -> orNegInfinity (pubDate candidate) <> NaN.
Proof. unfold dated. destruct (pubDate candidate); simpl; congruence. Qed.

Lemma truthy_wellBuilt (candidate : SparkleReleaseCandidate) :
  wellBuilt candidate -> truthy (versionKey candidate) = versionKey candidate.
Proof.
  intros (_ & _ & Hkey). destruct (versionKey candidate) as [key|]; [|reflexivity].
  destruct (Hkey key eq_refl) as [Hne _]. now apply truthy_of_nonEmpty.
Qed.

(** On candidates built from items, a tie on the version keys is a zero
    of [keyOrder]. *)
Lemma keyOrder_zero_tied (best candidate : SparkleReleaseCandidate) :
  wellBuilt best -> wellBuilt candidate ->
  (keyOrder (versionKey candidate) (versionKey best) = 0 <-> tied best candidate).
Proof.
  intros Hb Hc. unfold keyOrder, tied.
  rewrite (truthy_wellBuilt best Hb), (truthy_wellBuilt candidate Hc).
  destruct (versionKey candidate) as [x|], (versionKey best) as [y|].
  - split.
    + intros H. right. exists x, y. auto.
    + intros [[H _] | (x' & y' & Hx & Hy & H)]; [discriminate|].
      injection Hx as <-. injection Hy as <-. assumption.
  - split; [discriminate|].
    intros [[H _] | (x' & y' & _ & H & _)]; discriminate.
  - split; [discriminate|].
    intros [[_ H] | (x' & y' & H & _ & _)]; discriminate.
  - split; auto.
Qed.

Lemma app_cons_positions {A : Type} (before before' after after' : list A) (x x' : A) :
  (before ++ x :: after)%list = (before' ++ x' :: after')%list ->
  (before = before' /\ x = x' /\ after = after') \/
  (In x' before /\ In x after') \/
  (In x before' /\ In x' after).
Proof.
  intros H. apply app_eq_app in H as [l [[H1 H2] | [H1 H2]]].
  - destruct l as [|y l].
    + left. rewrite app_nil_r in H1. simpl in H2. injection H2 as -> ->. auto.
    + right. left. simpl in H2. injection H2 as <- ->. subst before.
      split; apply in_or_app; right; now left.
  - destruct l as [|y l].
    + left. rewrite app_nil_r in H1. simpl in H2. injection H2 as -> ->. auto.
    + right. right. simpl in H2. injection H2 as <- ->. subst before'.
      split; apply in_or_app; right; now left.
Qed.

Section SelectorExtras.

Variable Date_parse : string -> number.

Lemma candidateOf_label (item : Node) (candidate : SparkleReleaseCandidate) :
  candidateOf Date_parse item = Some candidate ->
  (versionKey candidate = None <-> displayVersion candidate = "").
Proof.
  unfold candidateOf.
  destruct (querySelector "enclosure" item) as [enclosure|]; [|discriminate].
  destruct (option_map JsString.trim (getAttribute "url" enclosure)) as [url|];
    [|discriminate].
  destruct (negb (JsString.nonEmpty url)); [discriminate|].
  intros [= <-]. cbn [versionKey displayVersion].
  destruct (trimmedOrEmpty (getAttribute "sparkle:version" enclosure)) as [|c1 s1],
    (trimmedOrEmpty (getAttribute "sparkle:shortVersionString" enclosure)) as [|c2 s2];
    cbn [JsString.nonEmpty]; split; congruence.
Qed.

(** X8.  The selector returns the first matched item that no other
    matched item outranks, and only that one: the release comes from an
    item that outranks every usable item before it and is outranked by no
    usable item after it, where [outranks candidate best] is the test by
    which the loop body replaces [latest]; conversely an item placed like
    this is the one the loop ends on. *)
Theorem selector_returns_first_maximum :
  (forall best candidate : SparkleReleaseCandidate,
     consider (Some best) candidate =
     Some (if outranks candidate best then candidate else best)) /\
  (forall (xml : Document) (release : VersionInfo),
     findLatestSparkleRelease Date_parse xml = Some release ->
     exists before item after best,
       querySelectorAll_channel_item xml = (before ++ item :: after)%list /\
       candidateOf Date_parse item = Some best /\
       release = {| version := displayVersion best; downloadUrl := candidateUrl best |} /\
       (forall earlier candidate,
          In earlier before -> candidateOf Date_parse earlier = Some candidate ->
          outranks best candidate = true) /\
       (forall later candidate,
          In later after -> candidateOf Date_parse later = Some candidate ->
          outranks candidate best = false)) /\
  (forall (before after : list Node) (item : Node) (best : SparkleReleaseCandidate),
     candidateOf Date_parse item = Some best ->
     (forall earlier candidate,
        In earlier before -> candidateOf Date_parse earlier = Some candidate ->
        outranks best candidate = true) ->
     (forall later candidate,
        In later after -> candidateOf Date_parse later = Some candidate ->
        outranks candidate best = false) ->
     latestAfter Date_parse (before ++ item :: after) = Some best).
Proof.
  split; [exact consider_outranks | split].
  - intros xml release. unfold findLatestSparkleRelease.
    destruct (latestAfter Date_parse (querySelectorAll_channel_item xml))
      as [best|] eqn:Hbest; [|discriminate].
    intros [= <-].
    destruct (latestAfter_first_maximum Date_parse _ best Hbest)
      as (before & item & after & Hitems & Hitem & Hbefore & Hafter).
    exists before, item, after, best. auto.
  - intros before after item best Hitem Hbefore Hafter.
    destruct (latestAfter Date_parse (before ++ item :: after)) as [found|] eqn:Hfound.
    + destruct (latestAfter_first_maximum Date_parse _ found Hfound)
        as (before' & item' & after' & Hitems & Hitem' & Hbefore' & Hafter').
      apply app_cons_positions in Hitems
        as [(_ & -> & _) | [[Hin' Hin] | [Hin Hin']]].
      * congruence.
      * pose proof (Hbefore item' found Hin' Hitem') as H1.
        pose proof (Hafter' item best Hin Hitem) as H2. congruence.
      * pose proof (Hbefore' item best Hin Hitem) as H1.
        pose proof (Hafter item' found Hin' Hitem') as H2. congruence.
    + pose proof (proj1 (latestAfter_None Date_parse _) Hfound item
                    (in_elt item before after)) as Hu.
      pose proof (proj2 (candidateOf_unusable Date_parse item) Hu). congruence.
Qed.

(** X9.  The selected version is the greatest: when the loop ends on
    [best], every usable item with a version key finds [best] with a
    version key too, and one that does not compare smaller than its own.
    An unversioned release is returned only when no usable item has a
    version. *)
Theorem selected_version_is_greatest (xml : Document) (best : SparkleReleaseCandidate) :
  latestAfter Date_parse (querySelectorAll_channel_item xml) = Some best ->
  forall (item : Node) (candidate : SparkleReleaseCandidate) (key : string),
    In item (querySelectorAll_channel_item xml) ->
    candidateOf Date_parse item = Some candidate ->
    versionKey candidate = Some key ->
    exists bestKey,
      versionKey best = Some bestKey /\ compareVersionStrings bestKey key >= 0.
Proof.
  intros Hbest item candidate key Hin Hc Hkey.
  pose proof (latestAfter_maximal Date_parse _ best Hbest item candidate Hin Hc) as Hmax.
  pose proof (fold_visit_wellBuilt Date_parse _ None
                ltac:(discriminate) best Hbest) as Wb.
  pose proof (candidateOf_wellBuilt Date_parse item candidate Hc) as Wc.
  assert (~ keyOrder (versionKey candidate) (versionKey best) > 0) as Hle.
  { intros Hpos. rewrite (proj2 (outranks_spec candidate best)) in Hmax by auto.
    discriminate. }
  rewrite keyOrder_antisym in Hle. unfold keyOrder in Hle.
  rewrite (truthy_wellBuilt best Wb), (truthy_wellBuilt candidate Wc), Hkey in Hle.
  destruct (versionKey best) as [bestKey|]; [|lia].
  exists bestKey. split; [reflexivity | lia].
Qed.

(** X10.  Among the usable items tied with the selected one on the
    version keys, none has a later publish date (an unknown date counting
    as minus infinity). *)
Theorem selected_date_is_latest_among_ties
    (xml : Document) (best : SparkleReleaseCandidate) :
  latestAfter Date_parse (querySelectorAll_channel_item xml) = Some best ->
  forall (item : Node) (candidate : SparkleReleaseCandidate),
    In item (querySelectorAll_channel_item xml) ->
    candidateOf Date_parse item = Some candidate ->
    tied best candidate ->
    JsNumber.gt (orNegInfinity (pubDate candidate)) (orNegInfinity (pubDate best)) = false.
Proof.
  intros Hbest item candidate Hin Hc Htied.
  pose proof (latestAfter_maximal Date_parse _ best Hbest item candidate Hin Hc) as Hmax.
  pose proof (fold_visit_wellBuilt Date_parse _ None
                ltac:(discriminate) best Hbest) as Wb.
  pose proof (candidateOf_wellBuilt Date_parse item candidate Hc) as Wc.
  apply (keyOrder_zero_tied best candidate Wb Wc) in Htied.
  destruct (JsNumber.gt (orNegInfinity (pubDate candidate)) (orNegInfinity (pubDate best)))
    eqn:Hgt; [|reflexivity].
  rewrite (proj2 (outranks_spec candidate best)) in Hmax by auto.
  discriminate.
Qed.

(** X11.  The order of the items does not change what is selected up to
    ties: over a permutation of the items the loop ends on a candidate
    tied on the version key with the original one and with the same
    publish date. *)
Theorem selection_independent_of_order
    (items items' : list Node) (best : SparkleReleaseCandidate) :
  Permutation items items' ->
  latestAfter Date_parse items = Some best ->
  exists best',
    latestAfter Date_parse items' = Some best' /\
    tied best best' /\
    orNegInfinity (pubDate best') = orNegInfinity (pubDate best).
Proof.
  intros Hperm Hbest.
  destruct (latestAfter_first_maximum Date_parse items best Hbest)
    as (before & item & after & Hitems & Hitem & _ & _).
  assert (In item items) as Hin by (rewrite Hitems; apply in_elt).
  destruct (latestAfter Date_parse items') as [best'|] eqn:Hbest'.
  - exists best'. split; [reflexivity|].
    destruct (latestAfter_first_maximum Date_parse items' best' Hbest')
      as (before' & item' & after' & Hitems' & Hitem' & _ & _).
    assert (In item' items') as Hin' by (rewrite Hitems'; apply in_elt).
    pose proof (latestAfter_maximal Date_parse items best Hbest item' best'
                  (Permutation_in _ (Permutation_sym Hperm) Hin') Hitem') as H1.
    pose proof (latestAfter_maximal Date_parse items' best' Hbest' item best
                  (Permutation_in _ Hperm Hin) Hitem) as H2.
    pose proof (candidateOf_wellBuilt Date_parse _ _ Hitem) as Wb.
    pose proof (candidateOf_wellBuilt Date_parse _ _ Hitem') as Wb'.
    pose proof (orNegInfinity_dated _ (candidateOf_dated Date_parse _ _ Hitem)) as Db.
    pose proof (orNegInfinity_dated _ (candidateOf_dated Date_parse _ _ Hitem')) as Db'.
    assert (keyOrder (versionKey best') (versionKey best) = 0) as Hzero.
    { pose proof (keyOrder_antisym (versionKey best') (versionKey best)) as Hanti.
      destruct (keyOrder_sign (versionKey best') (versionKey best)) as [H | [H | H]];
        [|assumption|].
      - rewrite (proj2 (outranks_spec best best')) in H2 by (left; lia). discriminate.
      - rewrite (proj2 (outranks_spec best' best)) in H1 by (left; lia). discriminate. }
    split; [now apply keyOrder_zero_tied|].
    apply number_gt_neither; try assumption.
    + destruct (JsNumber.gt (orNegInfinity (pubDate best')) (orNegInfinity (pubDate best)))
        eqn:Hgt; [|reflexivity].
      rewrite (proj2 (outranks_spec best' best)) in H1 by auto. discriminate.
    + destruct (JsNumber.gt (orNegInfinity (pubDate best)) (orNegInfinity (pubDate best')))
        eqn:Hgt; [|reflexivity].
      pose proof (keyOrder_antisym (versionKey best) (versionKey best')) as Hanti.
      rewrite (proj2 (outranks_spec best best')) in H2 by (right; split; [lia | auto]).
      discriminate.
  - pose proof (proj1 (latestAfter_None Date_parse items') Hbest' item
                  (Permutation_in _ Hperm Hin)) as Hu.
    pose proof (proj2 (candidateOf_unusable Date_parse item) Hu). congruence.
Qed.

(** X12.  The version label of the release is trimmed, and it is empty
    only when no usable item of the feed has a version identifier or a
    short version string. *)
Theorem empty_label_means_no_version (xml : Document) (release : VersionInfo) :
  findLatestSparkleRelease Date_parse xml = Some release ->
  JsString.trim (version release) = version release /\
  (version release = "" ->
   forall (item : Node) (candidate : SparkleReleaseCandidate),
     In item (querySelectorAll_channel_item xml) ->
     candidateOf Date_parse item = Some candidate ->
     versionKey candidate = None /\ displayVersion candidate = "").
Proof.
  unfold findLatestSparkleRelease.
  destruct (latestAfter Date_parse (querySelectorAll_channel_item xml))
    as [best|] eqn:Hbest; [|discriminate].
  intros [= <-]. cbn [version].
  destruct (latestAfter_first_maximum Date_parse _ best Hbest)
    as (before & chosen & after & _ & Hchosen & _ & _).
  split.
  - revert Hchosen. unfold candidateOf.
    destruct (querySelector "enclosure" chosen) as [enclosure|]; [|discriminate].
    destruct (option_map JsString.trim (getAttribute "url" enclosure)) as [url|];
      [|discriminate].
    destruct (negb (JsString.nonEmpty url)); [discriminate|].
    intros [= <-]. cbn [displayVersion].
    repeat match goal with
           | |- context [if ?b then _ else _] => destruct b
           end; try apply trimmedOrEmpty_trimmed; reflexivity.
  - intros Hempty item candidate Hin Hc.
    apply (candidateOf_label chosen best Hchosen) in Hempty.
    assert (versionKey candidate = None) as Hnone.
    { destruct (versionKey candidate) as [key|] eqn:Hkey; [|reflexivity].
      pose proof (latestAfter_maximal Date_parse _ best Hbest item candidate Hin Hc)
        as Hmax.
      pose proof (candidateOf_wellBuilt Date_parse item candidate Hc) as Wc.
      rewrite (proj2 (outranks_spec candidate best)) in Hmax; [discriminate|].
      left. unfold keyOrder.
      rewrite (truthy_wellBuilt candidate Wc), Hkey, Hempty. cbn. lia. }
    split; [assumption | now apply (candidateOf_label item candidate Hc)].
Qed.

End SelectorExtras.

(** ** The page *)

Section Page.

Variable Date_parse : string -> number.

Lemma candidateOf_url (item : Node) (candidate : SparkleReleaseCandidate) :
  candidateOf Date_parse item = Some candidate ->
  exists enclosure url,
    querySelector "enclosure" item = Some enclosure /\
    getAttribute "url" enclosure = Some url /\
    candidateUrl candidate = JsString.trim url.
Proof.
  unfold candidateOf.
  destruct (querySelector "enclosure" item) as [enclosure|]; [|discriminate].
  destruct (getAttribute "url" enclosure) as [url|] eqn:Hattr; [|discriminate].
  cbn [option_map].
  destruct (negb (JsString.nonEmpty (JsString.trim url))); [discriminate|].
  intros [= <-]. exists enclosure, url. repeat split; assumption.
Qed.

(** X13.  What the download button shows once the feed is in: its link is
    never empty; it is the releases page, and the text is a bare
    [Download], when every matched item is unusable; and when the selector
    finds a release the link is that release's URL, which is the trimmed
    [url] attribute of the enclosure of a matched item (the fallback never
    hides a found release), and the text carries [v] and the version
    exactly when the version is not empty. *)
Theorem page_shows_selected_release (xml : Document) :
  downloadHref (receiveFeed Date_parse None xml) <> "" /\
  ((forall item, In item (querySelectorAll_channel_item xml) -> unusable item) ->
   downloadHref (receiveFeed Date_parse None xml) = releasesPage /\
   downloadLabel (receiveFeed Date_parse None xml) = "Download ") /\
  (forall release : VersionInfo,
     findLatestSparkleRelease Date_parse xml = Some release ->
     downloadHref (receiveFeed Date_parse None xml) = downloadUrl release /\
     downloadLabel (receiveFeed Date_parse None xml) =
       "Download " ++
       (if JsString.nonEmpty (version release) then "v" ++ version release else "") /\
     exists item enclosure url,
       In item (querySelectorAll_channel_item xml) /\
       querySelector "enclosure" item = Some enclosure /\
       getAttribute "url" enclosure = Some url /\
       downloadHref (receiveFeed Date_parse None xml) = JsString.trim url).
Proof.
  assert (forall release : VersionInfo,
            findLatestSparkleRelease Date_parse xml = Some release ->
            downloadHref (receiveFeed Date_parse None xml) = downloadUrl release /\
            downloadUrl release <> "" /\
            exists item enclosure url,
              In item (querySelectorAll_channel_item xml) /\
              querySelector "enclosure" item = Some enclosure /\
              getAttribute "url" enclosure = Some url /\
              downloadUrl release = JsString.trim url) as Hfound.
  { intros release Hrelease. unfold receiveFeed. rewrite Hrelease.
    revert Hrelease. unfold findLatestSparkleRelease.
    destruct (latestAfter Date_parse (querySelectorAll_channel_item xml))
      as [best|] eqn:Hbest; [|discriminate].
    intros [= <-].
    destruct (fold_visit_wellBuilt Date_parse _ None ltac:(discriminate) best Hbest)
      as (Hurl & _ & _).
    destruct (latestAfter_first_maximum Date_parse _ best Hbest)
      as (before & item & after & Hitems & Hitem & _ & _).
    destruct (candidateOf_url item best Hitem) as (enclosure & url & He & Hu & Heq).
    unfold downloadHref, orElse. cbn [option_map downloadUrl].
    rewrite (truthy_of_nonEmpty _ Hurl).
    repeat split; try assumption.
    exists item, enclosure, url. repeat split; try assumption.
    rewrite Hitems. apply in_elt. }
  split; [|split].
  - destruct (findLatestSparkleRelease Date_parse xml) as [release|] eqn:Hrelease.
    + destruct (Hfound release eq_refl) as (-> & Hne & _). assumption.
    + unfold receiveFeed. rewrite Hrelease. discriminate.
  - intros Hall. unfold receiveFeed.
    rewrite (proj2 (findLatest_None Date_parse xml)
               (proj2 (latestAfter_None Date_parse _) Hall)).
    split; reflexivity.
  - intros release Hrelease.
    destruct (Hfound release Hrelease) as (Hhref & Hne & item & enclosure & url & H).
    split; [assumption|]. split.
    + unfold receiveFeed. rewrite Hrelease.
      unfold downloadLabel. cbn [option_map truthy]. 
      now destruct (JsString.nonEmpty (version release)).
    + exists item, enclosure, url. rewrite Hhref. exact H.
Qed.

(** X14.  The handler of the first revision reads the first enclosure of
    the document only, untrimmed and with defaults: on a channel it shows
    the first item whatever follows.  When the document has a single
    matched item, whose enclosure is the first of the document and has a
    URL and a version identifier that are trimmed and not empty, the
    selector returns what that handler showed if the enclosure has no
    short version string (or a blank one); if it has one, the selector
    shows the short version string where the handler showed the
    identifier.  On a bare enclosure, where the handler showed a release,
    the selector returns null. *)
Theorem selector_against_first_revision :
  (forall (attrs : list (string * string)) (date : option string) (rest : list Node),
     legacyVersionInfo (appcast (releaseItem attrs date :: rest)) =
     Some {| version := orElse (lookupAttribute "sparkle:version" attrs) "1.0.0";
             downloadUrl := orElse (lookupAttribute "url" attrs) "" |}) /\
  (forall (xml : Document) (item enclosure : Node) (url identifier : string),
     querySelectorAll_channel_item xml = [item] ->
     querySelector "enclosure" item = Some enclosure ->
     documentQuerySelector "enclosure" xml = Some enclosure ->
     getAttribute "url" enclosure = Some url ->
     JsString.trim url = url -> url <> "" ->
     getAttribute "sparkle:version" enclosure = Some identifier ->
     JsString.trim identifier = identifier -> identifier <> "" ->
     legacyVersionInfo xml = Some {| version := identifier; downloadUrl := url |} /\
     (trimmedOrEmpty (getAttribute "sparkle:shortVersionString" enclosure) = "" ->
      findLatestSparkleRelease Date_parse xml = legacyVersionInfo xml) /\
     (trimmedOrEmpty (getAttribute "sparkle:shortVersionString" enclosure) <> "" ->
      findLatestSparkleRelease Date_parse xml =
      Some {| version := trimmedOrEmpty
                           (getAttribute "sparkle:shortVersionString" enclosure);
              downloadUrl := url |})) /\
  (forall attrs : list (string * string),
     legacyVersionInfo [Element "enclosure" attrs []] <> None /\
     findLatestSparkleRelease Date_parse [Element "enclosure" attrs []] = None).
Proof.
  split; [|split].
  - intros attrs date rest. reflexivity.
  - intros xml item enclosure url identifier
      Hitems Hitem Hfirst Hurl Htrim Hne Hid Hidtrim Hidne.
    assert (legacyVersionInfo xml =
            Some {| version := identifier; downloadUrl := url |}) as Hlegacy.
    { unfold legacyVersionInfo. rewrite Hfirst, Hurl, Hid.
      unfold orElse. now rewrite !truthy_of_nonEmpty by assumption. }
    assert (forall short : string,
              trimmedOrEmpty (getAttribute "sparkle:shortVersionString" enclosure) = short ->
              findLatestSparkleRelease Date_parse xml =
              Some {| version := if JsString.nonEmpty short then short else identifier;
                      downloadUrl := url |}) as Hselector.
    { intros short Hshort.
      unfold findLatestSparkleRelease. rewrite Hitems.
      unfold latestAfter. cbn [fold_left]. unfold visit, candidateOf.
      rewrite Hitem, Hurl, Hid, Hshort. cbn [option_map trimmedOrEmpty].
      rewrite Htrim, Hidtrim.
      rewrite (proj2 (nonEmpty_true url) Hne), (proj2 (nonEmpty_true identifier) Hidne).
      cbn [negb consider displayVersion candidateUrl]. reflexivity. }
    split; [assumption|]. split.
    + intros Hshort. now rewrite Hlegacy, (Hselector "" Hshort).
    + intros Hshort. rewrite (Hselector _ eq_refl).
      now rewrite (proj2 (nonEmpty_true _) Hshort).
  - intros attrs. split; [discriminate|].
    unfold findLatestSparkleRelease.
    rewrite (no_wrapping_no_items [Element "enclosure" attrs []]); [reflexivity|].
    left. reflexivity.
Qed.

End Page.

(** ** The further properties at concrete inputs *)

Lemma compareVersionStrings_zero_iff_witness :
  compareVersionStrings "1.0" "1-0.0.0" = 0.
Proof.
  apply (proj2 (compareVersionStrings_zero_iff "1.0" "1-0.0.0")).
  intros k. destruct k as [|[|[|[|[|k]]]]]; reflexivity.
Defined.

Lemma selector_returns_first_maximum_witness :
  latestAfter parseUtcString
    ([versionedItem "https://r2.aizen.win/a.dmg" "1.2.0" None]
     ++ versionedItem "https://r2.aizen.win/b.dmg" "1.10.0" None
     :: [versionedItem "https://r2.aizen.win/c.dmg" "1.10" None]) =
  Some {| versionKey := Some "1.10.0"; displayVersion := "1.10.0";
          candidateUrl := "https://r2.aizen.win/b.dmg"; pubDate := None |}.
Proof.
  apply (proj2 (proj2 (selector_returns_first_maximum parseUtcString))).
  - reflexivity.
  - intros earlier candidate [<- | []] Hc.
    vm_compute in Hc. injection Hc as <-. reflexivity.
  - intros later candidate [<- | []] Hc.
    vm_compute in Hc. injection Hc as <-. reflexivity.
Defined.

Lemma selected_version_is_greatest_witness :
  exists bestKey,
    versionKey {| versionKey := Some "1.10.0"; displayVersion := "1.10.0";
                  candidateUrl := "https://r2.aizen.win/b.dmg"; pubDate := None |} =
    Some bestKey /\
    compareVersionStrings bestKey "1.9.5" >= 0.
Proof.
  apply (selected_version_is_greatest parseUtcString
           (appcast [versionedItem "https://r2.aizen.win/a.dmg" "1.2.0" None;
                     versionedItem "https://r2.aizen.win/b.dmg" "1.10.0" None;
                     versionedItem "https://r2.aizen.win/c.dmg" "1.9.5" None])
           _ eq_refl
           (versionedItem "https://r2.aizen.win/c.dmg" "1.9.5" None)
           {| versionKey := Some "1.9.5"; displayVersion := "1.9.5";
              candidateUrl := "https://r2.aizen.win/c.dmg"; pubDate := None |}).
  - simpl. auto.
  - reflexivity.
  - reflexivity.
Defined.

Lemma selected_date_is_latest_among_ties_witness :
  JsNumber.gt
    (orNegInfinity (pubDate
       {| versionKey := Some "2.0"; displayVersion := "2.0";
          candidateUrl := "https://r2.aizen.win/old.dmg";
          pubDate := Some (Finite 1704067200000) |}))
    (orNegInfinity (pubDate
       {| versionKey := Some "2.0.0"; displayVersion := "2.0.0";
          candidateUrl := "https://r2.aizen.win/new.dmg";
          pubDate := Some (Finite 1735689600000) |})) = false.
Proof.
  apply (selected_date_is_latest_among_ties parseUtcString
           (appcast [versionedItem "https://r2.aizen.win/old.dmg" "2.0"
                       (Some "Mon, 01 Jan 2024 00:00:00 GMT");
                     versionedItem "https://r2.aizen.win/new.dmg" "2.0.0"
                       (Some "Wed, 01 Jan 2025 00:00:00 GMT")])
           _ eq_refl
           (versionedItem "https://r2.aizen.win/old.dmg" "2.0"
              (Some "Mon, 01 Jan 2024 00:00:00 GMT"))).
  - simpl. auto.
  - reflexivity.
  - right. exists "2.0", "2.0.0". repeat split; reflexivity.
Defined.

Lemma selection_independent_of_order_witness :
  exists best',
    latestAfter parseUtcString
      [versionedItem "https://r2.aizen.win/b.dmg" "1.10.0" None;
       versionedItem "https://r2.aizen.win/a.dmg" "1.10" None] = Some best' /\
    tied {| versionKey := Some "1.10"; displayVersion := "1.10";
            candidateUrl := "https://r2.aizen.win/a.dmg"; pubDate := None |} best' /\
    orNegInfinity (pubDate best') =
    orNegInfinity (pubDate
      {| versionKey := Some "1.10"; displayVersion := "1.10";
         candidateUrl := "https://r2.aizen.win/a.dmg"; pubDate := None |}).
Proof.
  apply (selection_independent_of_order parseUtcString
           [versionedItem "https://r2.aizen.win/a.dmg" "1.10" None;
            versionedItem "https://r2.aizen.win/b.dmg" "1.10.0" None]).
  - apply perm_swap.
  - reflexivity.
Defined.

Lemma empty_label_means_no_version_witness :
  versionKey {| versionKey := None; displayVersion := "";
                candidateUrl := "https://r2.aizen.win/b.dmg"; pubDate := None |} = None /\
  displayVersion {| versionKey := None; displayVersion := "";
                    candidateUrl := "https://r2.aizen.win/b.dmg"; pubDate := None |} = "".
Proof.
  apply (proj2 (empty_label_means_no_version parseUtcString
                  (appcast [bareItem "https://r2.aizen.win/a.dmg" None;
                            bareItem "https://r2.aizen.win/b.dmg" None])
                  {| version := ""; downloadUrl := "https://r2.aizen.win/a.dmg" |}
                  eq_refl)
           eq_refl
           (bareItem "https://r2.aizen.win/b.dmg" None)).
  - simpl. auto.
  - reflexivity.
Defined.

Lemma page_shows_selected_release_witness :
  downloadHref
    (receiveFeed parseUtcString None
       (appcast [releaseItem [("url", " https://r2.aizen.win/Aizen.dmg ");
                              ("sparkle:version", "42");
                              ("sparkle:shortVersionString", "1.4.2")] None])) =
  "https://r2.aizen.win/Aizen.dmg" /\
  downloadLabel
    (receiveFeed parseUtcString None
       (appcast [releaseItem [("url", " https://r2.aizen.win/Aizen.dmg ");
                              ("sparkle:version", "42");
                              ("sparkle:shortVersionString", "1.4.2")] None])) =
  "Download v1.4.2".
Proof.
  destruct (proj2 (proj2 (page_shows_selected_release parseUtcString
              (appcast [releaseItem [("url", " https://r2.aizen.win/Aizen.dmg ");
                                     ("sparkle:version", "42");
                                     ("sparkle:shortVersionString", "1.4.2")] None])))
              {| version := "1.4.2"; downloadUrl := "https://r2.aizen.win/Aizen.dmg" |}
              eq_refl) as (Hhref & Hlabel & _).
  split; [exact Hhref | exact Hlabel].
Defined.

Lemma selector_against_first_revision_witness :
  findLatestSparkleRelease parseUtcString
    (appcast [versionedItem "https://r2.aizen.win/Aizen.dmg" "1.0.3" None]) =
  legacyVersionInfo
    (appcast [versionedItem "https://r2.aizen.win/Aizen.dmg" "1.0.3" None]) /\
  findLatestSparkleRelease parseUtcString
    (appcast [releaseItem [("url", "https://r2.aizen.win/Aizen.dmg");
                           ("sparkle:version", "42");
                           ("sparkle:shortVersionString", " 1.4.2 ")] None]) =
  Some {| version :=
            trimmedOrEmpty
              (getAttribute "sparkle:shortVersionString"
                 (Element "enclosure"
                    [("url", "https://r2.aizen.win/Aizen.dmg");
                     ("sparkle:version", "42");
                     ("sparkle:shortVersionString", " 1.4.2 ")] []));
          downloadUrl := "https://r2.aizen.win/Aizen.dmg" |}.
Proof.
  split.
  - apply (proj1 (proj2 (proj1 (proj2 (selector_against_first_revision parseUtcString))
             (appcast [versionedItem "https://r2.aizen.win/Aizen.dmg" "1.0.3" None])
             (versionedItem "https://r2.aizen.win/Aizen.dmg" "1.0.3" None)
             (Element "enclosure"
                [("url", "https://r2.aizen.win/Aizen.dmg"); ("sparkle:version", "1.0.3")]
                [])
             "https://r2.aizen.win/Aizen.dmg" "1.0.3"
             eq_refl eq_refl eq_refl eq_refl eq_refl ltac:(discriminate)
             eq_refl eq_refl ltac:(discriminate)))).
    reflexivity.
  - apply (proj2 (proj2 (proj1 (proj2 (selector_against_first_revision parseUtcString))
             (appcast [releaseItem [("url", "https://r2.aizen.win/Aizen.dmg");
                                    ("sparkle:version", "42");
                                    ("sparkle:shortVersionString", " 1.4.2 ")] None])
             (releaseItem [("url", "https://r2.aizen.win/Aizen.dmg");
                           ("sparkle:version", "42");
                           ("sparkle:shortVersionString", " 1.4.2 ")] None)
             (Element "enclosure"
                [("url", "https://r2.aizen.win/Aizen.dmg");
                 ("sparkle:version", "42");
                 ("sparkle:shortVersionString", " 1.4.2 ")] [])
             "https://r2.aizen.win/Aizen.dmg" "42"
             eq_refl eq_refl eq_refl eq_refl eq_refl ltac:(discriminate)
             eq_refl eq_refl ltac:(discriminate)))).
    vm_compute. discriminate.
Defined.

(** ** The shape of the tokens *)

Lemma roundNat_nonneg (n : Z) :
  0 <= n ->
  JsNumber.roundNat n = PosInfinity \/
  exists v, JsNumber.roundNat n = Finite v /\ 0 <= v.
Proof.
  intros Hn. unfold JsNumber.roundNat.
  destruct (n <? 2 ^ 53); [right; eauto|].
  match goal with |- context [if ?b then PosInfinity else _] => destruct b end;
    [left; reflexivity|].
  right. eexists. split; [reflexivity|].
  apply Z.shiftl_nonneg.
  assert (0 <= Z.shiftr n (Z.log2 n - 52)) by now apply Z.shiftr_nonneg.
  match goal with |- context [if ?b then _ else _] => destruct b end; lia.
Qed.

Lemma toSegment_canonical (segment : string) :
  segment <> "" -> JsString.trim segment = segment -> canonical (toSegment segment).
Proof.
  intros Hne Htrim. unfold toSegment.
  destruct (JsString.isDigitString segment) eqn:Hd; cbn [canonical].
  - destruct segment as [|c rest]; [discriminate|].
    assert (JsString.isDigit c = true) as Hc.
    { simpl in Hd. now apply andb_prop in Hd as [Hc _]. }
    rewrite (parseInt10_unsigned c rest Hc).
    assert (0 <= 1 * fst (JsNumber.readDigits (10 * 0 + JsNumber.digitValue c) true rest))
      as Hv.
    { pose proof (readDigits_nonneg rest (10 * 0 + JsNumber.digitValue c) true) as H.
      unfold JsString.isDigit in Hc. apply andb_prop in Hc as [Hlow _].
      apply N.leb_le in Hlow. unfold JsNumber.digitValue in *. lia. }
    unfold JsNumber.ofInteger.
    rewrite (proj2 (Z.ltb_ge _ 0) Hv). now apply roundNat_nonneg.
  - repeat split.
    + destruct segment; [contradiction | discriminate].
    + now rewrite trim_toLowerCase, Htrim.
    + apply toLowerCase_idempotent.
    + now rewrite isDigitString_toLowerCase.
Qed.

(** X15.  Every token is in canonical shape: a number token is a natural
    number or Infinity, never NaN nor negative; a string token is not
    empty, trimmed, lower-case and not all digits. *)
Theorem tokenizeVersion_canonical (version : string) :
  Forall canonical (tokenizeVersion version).
Proof.
  unfold tokenizeVersion.
  induction (JsString.split version) as [|piece pieces IH]; [constructor|].
  cbn [map filter].
  destruct (JsString.nonEmpty (JsString.trim piece)) eqn:Hne; [|exact IH].
  cbn [map]. constructor; [|exact IH].
  apply toSegment_canonical; [now apply nonEmpty_true | apply trim_idempotent].
Qed.
